(** * netpoll: the epoll backend of easygo, and its shutdown protocol

    A shallow embedding of [netpoll/epoll.go] (and of the error values and
    the configuration defaults of [netpoll/netpoll.go]).

    - Go [int] and [int32] values are integers of [Z] with the wrap-around
      of the conversions written out ([int], [int32]).
    - The registration table [map[int]func(EpollEvent)] is a [gmap] from
      handles to function values; a function value is [None] when it is
      [nil], and the table itself is [None] when the map is [nil].
    - Every method runs in a state monad over the instance with a log of
      what it does to the outside world: system calls together with the
      answer the kernel gave, lock operations, writes to the fields the
      goroutines share, callback invocations, calls of the error handler,
      channel operations.  The kernel's answers are arguments of the
      methods.
    - A computation can finish, panic, or block (on [<-ep.waitDone], or in
      [EpollWait] when the kernel has nothing more to report).
    - A callback and an error handler are functions of the caller: an
      invocation is logged, and is taken to return. *)

From stdpp Require Import gmap list strings.

Local Open Scope Z_scope.

(** ** Integers *)

(** Conversion to a signed integer of [w] bits. *)
Definition wrap_signed (w : Z) (z : Z) : Z :=
  (z + 2 ^ (w - 1)) mod 2 ^ w - 2 ^ (w - 1).

Definition int32 (z : Z) : Z := wrap_signed 32 z.
Definition int (z : Z) : Z := wrap_signed 64 z.

(** ** Events, errors, callbacks *)

(** [EpollEvent] is a [uint32] bit mask. *)
Definition EpollEvent := Z.

Definition EPOLLIN : EpollEvent := 0x1.
Definition EPOLLPRI : EpollEvent := 0x2.
Definition EPOLLOUT : EpollEvent := 0x4.
Definition EPOLLERR : EpollEvent := 0x8.
Definition EPOLLHUP : EpollEvent := 0x10.
Definition EPOLLRDHUP : EpollEvent := 0x2000.
Definition EPOLLONESHOT : EpollEvent := 0x40000000.
Definition EPOLLET : EpollEvent := 0x80000000.

(** The value whose receipt means that the epoll instance is closed. *)
Definition _EPOLLCLOSED : EpollEvent := 0x20.

(** [unix.EpollEvent]: the mask and the handle the kernel stores and
    reports. *)
Record unix_EpollEvent := { Events : Z; Fd : Z }.

(** The errors of the package, and the kernel's error numbers. *)
Inductive error :=
| ErrNotFiler
| ErrClosed
| ErrRegistered
| ErrNotRegistered
| Errno (e : Z).

(** A non-nil [func(EpollEvent)] is known by its identity. *)
Definition Cb := nat.
(** A function value: [None] is [nil]. *)
Definition Func := option Cb.

(** The handler of [EpollConfig.OnWaitError]. *)
Inductive Handler :=
| defaultOnWaitError
| userHandler (id : nat).

Record EpollConfig := { OnWaitError : option Handler }.

Definition withDefaults (c : option EpollConfig) : EpollConfig :=
  let config := match c with
                | Some c => c
                | None => {| OnWaitError := None |}
                end in
  match OnWaitError config with
  | None => {| OnWaitError := Some defaultOnWaitError |}
  | Some _ => config
  end.

(** The handler a configuration with defaults holds. *)
Definition handler_of (config : EpollConfig) : Handler :=
  match OnWaitError config with
  | Some h => h
  | None => defaultOnWaitError
  end.

(** ** [String] *)

(** The closure [name] of the two [String] methods: it adds the name of a
    flag that is set to the result [str], after a bar when the result is
    not empty. *)
Definition name (evt event : Z) (nm : string) (str : string) : string :=
  if Z.land evt event =? 0 then str
  else (if decide (str ≠ "") then str +:+ "|" else str) +:+ nm.

Definition EpollEvent_String (evt : EpollEvent) : string :=
  let str := "" in
  let str := name evt EPOLLIN "EPOLLIN" str in
  let str := name evt EPOLLOUT "EPOLLOUT" str in
  let str := name evt EPOLLRDHUP "EPOLLRDHUP" str in
  let str := name evt EPOLLPRI "EPOLLPRI" str in
  let str := name evt EPOLLERR "EPOLLERR" str in
  let str := name evt EPOLLHUP "EPOLLHUP" str in
  let str := name evt EPOLLET "EPOLLET" str in
  let str := name evt EPOLLONESHOT "EPOLLONESHOT" str in
  let str := name evt _EPOLLCLOSED "_EPOLLCLOSED" str in
  str.

(** [Event] is a [uint16] bit mask. *)
Definition Event := Z.

Definition EventRead : Event := 0x1.
Definition EventWrite : Event := 0x2.
Definition EventOneShot : Event := 0x4.
Definition EventEdgeTriggered : Event := 0x8.
Definition EventHup : Event := 0x10.
Definition EventReadHup : Event := 0x20.
Definition EventWriteHup : Event := 0x40.
Definition EventErr : Event := 0x80.
Definition EventPollerClosed : Event := 0x8000.

Definition Event_String (ev : Event) : string :=
  let str := "" in
  let str := name ev EventRead "EventRead" str in
  let str := name ev EventWrite "EventWrite" str in
  let str := name ev EventOneShot "EventOneShot" str in
  let str := name ev EventEdgeTriggered "EventEdgeTriggered" str in
  let str := name ev EventReadHup "EventReadHup" str in
  let str := name ev EventWriteHup "EventWriteHup" str in
  let str := name ev EventHup "EventHup" str in
  let str := name ev EventErr "EventErr" str in
  let str := name ev EventPollerClosed "EventPollerClosed" str in
  str.

(** The flags the two methods know, in the order in which they name them,
    and the bits of all of them. *)
Definition EpollEvent_names : list (Z * string) :=
  [(EPOLLIN, "EPOLLIN"); (EPOLLOUT, "EPOLLOUT"); (EPOLLRDHUP, "EPOLLRDHUP");
   (EPOLLPRI, "EPOLLPRI"); (EPOLLERR, "EPOLLERR"); (EPOLLHUP, "EPOLLHUP");
   (EPOLLET, "EPOLLET"); (EPOLLONESHOT, "EPOLLONESHOT");
   (_EPOLLCLOSED, "_EPOLLCLOSED")].

Definition Event_names : list (Z * string) :=
  [(EventRead, "EventRead"); (EventWrite, "EventWrite");
   (EventOneShot, "EventOneShot"); (EventEdgeTriggered, "EventEdgeTriggered");
   (EventReadHup, "EventReadHup"); (EventWriteHup, "EventWriteHup");
   (EventHup, "EventHup"); (EventErr, "EventErr");
   (EventPollerClosed, "EventPollerClosed")].

Definition mask_of (tbl : list (Z * string)) : Z :=
  foldr (λ '(f, _) acc, Z.lor f acc) 0 tbl.

(** The names of the flags of a table that are set in [evt]. *)
Definition names_set (tbl : list (Z * string)) (evt : Z) : list string :=
  snd <$> filter (λ '(f, _), Z.land evt f ≠ 0) tbl.

(** ** The instance *)

Record Epoll := {
  ep_fd : Z;
  ep_eventFd : Z;
  ep_closed : bool;
  (** [true] once the channel [waitDone] is closed *)
  ep_waitDone : bool;
  ep_callbacks : option (gmap Z Func);
}.

Definition set_closed (b : bool) (ep : Epoll) : Epoll :=
  {| ep_fd := ep_fd ep; ep_eventFd := ep_eventFd ep; ep_closed := b;
     ep_waitDone := ep_waitDone ep; ep_callbacks := ep_callbacks ep |}.

Definition set_waitDone (b : bool) (ep : Epoll) : Epoll :=
  {| ep_fd := ep_fd ep; ep_eventFd := ep_eventFd ep; ep_closed := ep_closed ep;
     ep_waitDone := b; ep_callbacks := ep_callbacks ep |}.

Definition set_callbacks (t : option (gmap Z Func)) (ep : Epoll) : Epoll :=
  {| ep_fd := ep_fd ep; ep_eventFd := ep_eventFd ep; ep_closed := ep_closed ep;
     ep_waitDone := ep_waitDone ep; ep_callbacks := t |}.

(** Reading a Go map: a nil map reads as an empty one. *)
Definition map_has (t : option (gmap Z Func)) (k : Z) : bool :=
  match t with
  | Some m => bool_decide (is_Some (m !! k))
  | None => false
  end.

(** [t[k]]: the zero value, [nil], when the key is absent. *)
Definition map_get (t : option (gmap Z Func)) (k : Z) : Func :=
  match t with
  | Some m => default None (m !! k)
  | None => None
  end.

(** ** The log *)

Inductive CtlOp := EPOLL_CTL_ADD | EPOLL_CTL_DEL | EPOLL_CTL_MOD.

Inductive Ev :=
| EvLock
| EvUnlock
| EvRLock
| EvRUnlock
(** writes to the instance: [ep.closed = b], [ep.callbacks[fd] = cb],
    [delete(ep.callbacks, fd)], [ep.callbacks = nil] *)
| EvSetClosed (b : bool)
| EvMapStore (fd : Z) (cb : Func)
| EvMapDelete (fd : Z)
| EvMapNil
(** [unix.EpollCreate1(flags)] and its answer: an error number or the new
    handle *)
| EvEpollCreate1 (flags : Z) (r : Z + Z)
(** [unix.Syscall(SYS_EVENTFD2, 0, 0, 0)] and its answer [(r0, errno)] *)
| EvEventfd2 (r0 errno : Z)
(** [unix.EpollCtl(epfd, op, fd, ev)] and its answer *)
| EvEpollCtl (epfd : Z) (op : CtlOp) (fd : Z) (ev : option unix_EpollEvent)
    (r : option Z)
(** [unix.EpollWait(epfd, events, msec)] with [len(events)] and its answer:
    an error number or the ready entries *)
| EvEpollWait (epfd : Z) (maxevents : nat) (msec : Z)
    (r : Z + list unix_EpollEvent)
| EvWrite (fd : Z) (p : list Z) (r : Z + Z)
| EvClose (fd : Z) (r : option Z)
(** a callback is invoked *)
| EvCall (cb : Cb) (evt : EpollEvent)
(** the error handler is invoked *)
| EvOnError (h : Handler) (err : error)
(** [close(ep.waitDone)] *)
| EvChanClose
(** [<-ep.waitDone] returned *)
| EvChanRecv
(** [make] of the two batch buffers of the wait loop *)
| EvMake (n : nat)
(** [go ep.wait(onError)] *)
| EvGo (h : Handler).

(** ** The monad *)

Record World (S : Type) := mkWorld { inst : S; log : list Ev }.
Arguments mkWorld {S} _ _.
Arguments inst {S} _.
Arguments log {S} _.

Inductive Res (A : Type) :=
| Ok (a : A)
| Panic (msg : string)
| Blocked.
Arguments Ok {A} _.
Arguments Panic {A} _.
Arguments Blocked {A}.

Definition M (S A : Type) : Type := World S → Res A * World S.

Definition ret {S A} (a : A) : M S A := λ w, (Ok a, w).

Definition bind {S A B} (m : M S A) (f : A → M S B) : M S B :=
  λ w, match m w with
       | (Ok a, w') => f a w'
       | (Panic msg, w') => (Panic msg, w')
       | (Blocked, w') => (Blocked, w')
       end.

Declare Scope go_scope.
Delimit Scope go_scope with go.
Notation "x <- m ;; k" := (bind m (λ x, k))
  (at level 100, m at next level, k at level 200, right associativity,
   format "'[v' x  <-  m  ;; '/' k ']'") : go_scope.
Notation "m ;;; k" := (bind m (λ _, k))
  (at level 100, k at level 200, right associativity,
   format "'[v' m  ;;; '/' k ']'") : go_scope.
Local Open Scope go_scope.

Definition panic {S A} (msg : string) : M S A := λ w, (Panic msg, w).
Definition block {S A} : M S A := λ w, (Blocked, w).

Definition emit {S} (e : Ev) : M S unit :=
  λ w, (Ok tt, mkWorld (inst w) (log w ++ [e])).

Definition gets {S A} (f : S → A) : M S A := λ w, (Ok (f (inst w)), w).

Definition modify {S} (f : S → S) : M S unit :=
  λ w, (Ok tt, mkWorld (f (inst w)) (log w)).

(** [defer cleanup] around a body: the cleanup runs when the body returns
    and when it panics, and the panic goes on after it.  A body that is
    blocked has not returned. *)
Definition defer {S A} (cleanup : M S unit) (body : M S A) : M S A :=
  λ w, match body w with
       | (Ok a, w') =>
           match cleanup w' with
           | (Ok _, w'') => (Ok a, w'')
           | (Panic msg, w'') => (Panic msg, w'')
           | (Blocked, w'') => (Blocked, w'')
           end
       | (Panic msg, w') =>
           match cleanup w' with
           | (Blocked, w'') => (Blocked, w'')
           | (_, w'') => (Panic msg, w'')
           end
       | (Blocked, w') => (Blocked, w')
       end.

(** Running a method on an instance, from an empty log. *)
Definition run {S A} (m : M S A) (s : S) : Res A * World S :=
  m (mkWorld s []).

(** ** The lock, the system calls, the callbacks *)

Definition mu_Lock {S} : M S unit := emit EvLock.
Definition mu_Unlock {S} : M S unit := emit EvUnlock.
Definition mu_RLock {S} : M S unit := emit EvRLock.
Definition mu_RUnlock {S} : M S unit := emit EvRUnlock.

Definition as_error (r : option Z) : option error := Errno <$> r.

Definition unix_EpollCreate1 {S} (flags : Z) (r : Z + Z) : M S (Z + Z) :=
  emit (EvEpollCreate1 flags r) ;;; ret r.

Definition unix_Eventfd2 {S} (r0 errno : Z) : M S (Z * Z) :=
  emit (EvEventfd2 r0 errno) ;;; ret (r0, errno).

Definition unix_EpollCtl {S} (epfd : Z) (op : CtlOp) (fd : Z)
    (ev : option unix_EpollEvent) (r : option Z) : M S (option error) :=
  emit (EvEpollCtl epfd op fd ev r) ;;; ret (as_error r).

Definition unix_EpollWait {S} (epfd : Z) (maxevents : nat) (msec : Z)
    (r : Z + list unix_EpollEvent) : M S (Z + list unix_EpollEvent) :=
  emit (EvEpollWait epfd maxevents msec r) ;;; ret r.

Definition unix_Write {S} (fd : Z) (p : list Z) (r : Z + Z) : M S (Z + Z) :=
  emit (EvWrite fd p r) ;;; ret r.

Definition unix_Close {S} (fd : Z) (r : option Z) : M S (option error) :=
  emit (EvClose fd r) ;;; ret (as_error r).

(** [cb(evt)] for a function value that is not nil. *)
Definition call {S} (cb : Cb) (evt : EpollEvent) : M S unit :=
  emit (EvCall cb evt).

Definition onError_call {S} (h : Handler) (err : error) : M S unit :=
  emit (EvOnError h err).

(** ** Registration: [Add], [Del], [Mod] *)

Definition uint32 (z : Z) : Z := z mod 2 ^ 32.

(** [ep.callbacks[fd] = cb]: an assignment to an entry of a nil map
    panics. *)
Definition map_store (fd : Z) (cb : Func) : M Epoll unit :=
  t <- gets ep_callbacks ;;
  match t with
  | Some m =>
    emit (EvMapStore fd cb) ;;; modify (set_callbacks (Some (<[fd := cb]> m)))
  | None => panic "assignment to entry in nil map"
  end.

(** [delete(ep.callbacks, fd)]: nothing to do on a nil map. *)
Definition map_delete (fd : Z) : M Epoll unit :=
  emit (EvMapDelete fd) ;;;
  modify (λ ep, set_callbacks (delete fd <$> ep_callbacks ep) ep).

(** [ep.closed = b] and [ep.callbacks = nil]. *)
Definition store_closed (b : bool) : M Epoll unit :=
  emit (EvSetClosed b) ;;; modify (set_closed b).

Definition store_callbacks_nil : M Epoll unit :=
  emit EvMapNil ;;; modify (set_callbacks None).

Definition Add (fd : Z) (events : EpollEvent) (cb : Func) (r : option Z)
    : M Epoll (option error) :=
  let ev := {| Events := uint32 events; Fd := int32 fd |} in
  mu_Lock ;;;
  defer mu_Unlock (
    closed <- gets ep_closed ;;
    if closed : bool then ret (Some ErrClosed) else
    t <- gets ep_callbacks ;;
    if map_has t fd then ret (Some ErrRegistered) else
    map_store fd cb ;;;
    epfd <- gets ep_fd ;;
    unix_EpollCtl epfd EPOLL_CTL_ADD fd (Some ev) r).

Definition Del (fd : Z) (r : option Z) : M Epoll (option error) :=
  mu_Lock ;;;
  defer mu_Unlock (
    closed <- gets ep_closed ;;
    if closed : bool then ret (Some ErrClosed) else
    t <- gets ep_callbacks ;;
    if negb (map_has t fd) then ret (Some ErrNotRegistered) else
    map_delete fd ;;;
    epfd <- gets ep_fd ;;
    unix_EpollCtl epfd EPOLL_CTL_DEL fd None r).

Definition Mod (fd : Z) (events : EpollEvent) (r : option Z)
    : M Epoll (option error) :=
  let ev := {| Events := uint32 events; Fd := int32 fd |} in
  mu_RLock ;;;
  defer mu_RUnlock (
    closed <- gets ep_closed ;;
    if closed : bool then ret (Some ErrClosed) else
    t <- gets ep_callbacks ;;
    if negb (map_has t fd) then ret (Some ErrNotRegistered) else
    epfd <- gets ep_fd ;;
    unix_EpollCtl epfd EPOLL_CTL_MOD fd (Some ev) r).

(** ** Construction: [EpollCreate] *)

(** The new instance, or [nil] and the error. *)
Definition EpollCreate (c : option EpollConfig)
    (r_create : Z + Z) (r0 errno : Z) (r_ctl r_close_fd r_close_eventFd : option Z)
    : M unit (option Epoll * option error) :=
  let config := withDefaults c in
  res <- unix_EpollCreate1 0 r_create ;;
  match res with
  | inl e => ret (None, Some (Errno e))
  | inr fd =>
    r <- unix_Eventfd2 r0 errno ;;
    let '(r0, errno) := r in
    if bool_decide (errno ≠ 0) then ret (None, Some (Errno errno)) else
    let eventFd := int r0 in
    err <- unix_EpollCtl fd EPOLL_CTL_ADD eventFd
             (Some {| Events := EPOLLIN; Fd := int32 eventFd |}) r_ctl ;;
    match err with
    | Some err =>
      unix_Close fd r_close_fd ;;;
      unix_Close eventFd r_close_eventFd ;;;
      ret (None, Some err)
    | None =>
      let ep := {| ep_fd := fd; ep_eventFd := eventFd; ep_closed := false;
                   ep_waitDone := false; ep_callbacks := Some ∅ |} in
      emit (EvGo (handler_of config)) ;;;
      ret (Some ep, None)
    end
  end.

(** ** The wait loop *)

Definition maxWaitEventsBegin : nat := Z.to_nat 1024.
Definition maxWaitEventsStop : nat := Z.to_nat 32768.

(** A slice of function values: its backing array, whose length is the
    capacity, and its length. *)
Record slice := { arr : list Func; len : nat }.

(** [make([]func(EpollEvent), 0, n)] *)
Definition make_callbacks (n : nat) : slice :=
  {| arr := replicate n None; len := 0 |}.

(** [make([]unix.EpollEvent, n)] *)
Definition make_events (n : nat) : list unix_EpollEvent :=
  replicate n {| Events := 0; Fd := 0 |}.

(** [s[:n]], which needs [n <= cap(s)]. *)
Definition reslice (n : nat) (s : slice) : option slice :=
  if decide (n ≤ length (arr s))%nat then Some {| arr := arr s; len := n |}
  else None.

(** [s[i]] and [s[i] = x], which need [i < len(s)]. *)
Definition slice_get (s : slice) (i : nat) : option Func :=
  if decide (i < len s)%nat then arr s !! i else None.

Definition slice_set (s : slice) (i : nat) (x : Func) : option slice :=
  if decide (i < len s ∧ i < length (arr s))%nat
  then Some {| arr := <[i := x]> (arr s); len := len s |}
  else None.

(** The buffer after the kernel has written the ready entries at its
    front. *)
Definition fill (ready buf : list unix_EpollEvent) : list unix_EpollEvent :=
  take (length buf) (ready ++ drop (length ready) buf).

(** The local variables of the loop. *)
Record Locals := { events : list unix_EpollEvent; callbacks : slice }.

Inductive LoopCtl :=
| Continue (l : Locals)
| Return.

(** The first [for] of an iteration, from index [i] with [k] entries to
    go: under the read lock, look the ready handles up.  [None] when the
    wake handle was met: the lock is released and the loop is to return. *)
Fixpoint resolve (k i : nat) (events : list unix_EpollEvent) (callbacks : slice)
    : M Epoll (option slice) :=
  match k with
  | O => ret (Some callbacks)
  | S k' =>
    match events !! i with
    | None => panic "index out of range"
    | Some e =>
      let fd := int (Fd e) in
      eventFd <- gets ep_eventFd ;;
      if bool_decide (fd = eventFd) then
        mu_RUnlock ;;; ret None
      else
        t <- gets ep_callbacks ;;
        match slice_set callbacks i (map_get t fd) with
        | None => panic "index out of range"
        | Some callbacks => resolve k' (S i) events callbacks
        end
    end
  end.

(** The second [for]: invoke what was found and clear the slot. *)
Fixpoint dispatch (k i : nat) (events : list unix_EpollEvent) (callbacks : slice)
    : M Epoll slice :=
  match k with
  | O => ret callbacks
  | S k' =>
    match slice_get callbacks i with
    | None => panic "index out of range"
    | Some None => dispatch k' (S i) events callbacks
    | Some (Some cb) =>
      match events !! i with
      | None => panic "index out of range"
      | Some e =>
        call cb (Events e) ;;;
        match slice_set callbacks i None with
        | None => panic "index out of range"
        | Some callbacks => dispatch k' (S i) events callbacks
        end
      end
    end
  end.

(** Go's range over a map visits the entries in an order of its own. *)
Fixpoint for_range {S A} (l : list A) (body : A → M S unit) : M S unit :=
  match l with
  | [] => ret tt
  | x :: l' => body x ;;; for_range l' body
  end.

(** [closeBytes], written to the eventfd. *)
Definition closeBytes : list Z := [1; 0; 0; 0; 0; 0; 0; 0].

(** [<-ep.waitDone]: the other goroutines go on ([bg]) until the channel
    is closed; the receive does not return before. *)
Definition waitDone_recv (bg : M Epoll unit) : M Epoll unit :=
  bg ;;;
  done <- gets ep_waitDone ;;
  if done : bool then emit EvChanRecv else block.

(** [close(ep.waitDone)]: closing a closed channel panics. *)
Definition waitDone_close : M Epoll unit :=
  done <- gets ep_waitDone ;;
  if done : bool then panic "close of closed channel"
  else emit EvChanClose ;;; modify (set_waitDone true).

(** ** Reading a log *)

#[global] Instance unix_EpollEvent_eq_dec : EqDecision unix_EpollEvent.
Proof. solve_decision. Defined.
#[global] Instance error_eq_dec : EqDecision error.
Proof. solve_decision. Defined.
#[global] Instance Handler_eq_dec : EqDecision Handler.
Proof. solve_decision. Defined.
#[global] Instance CtlOp_eq_dec : EqDecision CtlOp.
Proof. solve_decision. Defined.
#[global] Instance Ev_eq_dec : EqDecision Ev.
Proof. solve_decision. Defined.

(** The callback invocations of a log, in order. *)
Definition calls (tr : list Ev) : list (Cb * EpollEvent) :=
  omap (λ e, match e with EvCall cb evt => Some (cb, evt) | _ => None end) tr.

(** The invocations of the error handler. *)
Definition errors_reported (tr : list Ev) : list (Handler * error) :=
  omap (λ e, match e with EvOnError h err => Some (h, err) | _ => None end) tr.

(** The system calls of a log. *)
Definition is_syscall (e : Ev) : bool :=
  match e with
  | EvEpollCreate1 _ _ | EvEventfd2 _ _ | EvEpollCtl _ _ _ _ _
  | EvEpollWait _ _ _ _ | EvWrite _ _ _ | EvClose _ _ => true
  | _ => false
  end.

Definition syscalls (tr : list Ev) : list Ev := filter (λ e, is_syscall e) tr.

(** How many times an event occurs. *)
Definition occurrences (e : Ev) (tr : list Ev) : nat :=
  length (filter (λ e', e' = e) tr).

(** The calls of [EpollWait] with the capacity and the answer. *)
Definition wait_calls (tr : list Ev) : list (nat * (Z + list unix_EpollEvent)) :=
  omap (λ e, match e with EvEpollWait _ n _ r => Some (n, r) | _ => None end) tr.

(** The handles a log opens, those it closes, and those it leaves open. *)
Definition opened (tr : list Ev) : list Z :=
  omap (λ e, match e with
             | EvEpollCreate1 _ (inr fd) => Some fd
             | EvEventfd2 r0 0 => Some (int r0)
             | _ => None
             end) tr.

Definition closed_handles (tr : list Ev) : list Z :=
  omap (λ e, match e with EvClose fd _ => Some fd | _ => None end) tr.

Definition leaked (tr : list Ev) : list Z :=
  filter (λ fd, fd ∉ closed_handles tr) (opened tr).

(** Every callback of the log is invoked while the lock of the instance is
    not held; [held] counts the holders before the log. *)
Fixpoint calls_unlocked (held : nat) (tr : list Ev) : bool :=
  match tr with
  | [] => true
  | (EvLock | EvRLock) :: tr' => calls_unlocked (S held) tr'
  | (EvUnlock | EvRUnlock) :: tr' => calls_unlocked (pred held) tr'
  | EvCall _ _ :: tr' => bool_decide (held = O) && calls_unlocked held tr'
  | _ :: tr' => calls_unlocked held tr'
  end.

(** The invocations a closing instance owes to a table: one for every entry
    whose function is not nil. *)
Definition closed_calls (l : list (Z * Func)) : list (Cb * EpollEvent) :=
  omap (λ '(_, cb), (λ cb, (cb, _EPOLLCLOSED)) <$> cb) l.

(** The invocations a batch of ready entries owes to a table: one for every
    entry whose handle has a function that is not nil, with the mask the
    kernel reported. *)
Definition lookup_ready (t : option (gmap Z Func)) (e : unix_EpollEvent) : Func :=
  map_get t (int (Fd e)).

Definition ready_calls (t : option (gmap Z Func)) (ready : list unix_EpollEvent)
    : list (Cb * EpollEvent) :=
  omap (λ e, (λ cb, (cb, Events e)) <$> lookup_ready t e) ready.

(** The invocations of a batch whose functions are already in the slots. *)
Definition slot_calls (slots : list Func) (ready : list unix_EpollEvent)
    : list (Cb * EpollEvent) :=
  omap (λ '(cb, e), (λ cb, (cb, Events e)) <$> cb) (zip slots ready).

(** The log of a list of invocations. *)
Definition call_events (cs : list (Cb * EpollEvent)) : list Ev :=
  (λ '(cb, evt), EvCall cb evt) <$> cs.

(** The two batch buffers of the loop have the same capacity. *)
Definition locals_ok (l : Locals) : Prop :=
  length (arr (callbacks l)) = length (events l).

(** The test of the loop for doubling its buffers after [n] ready entries. *)
Definition grows (n cap : nat) : bool :=
  bool_decide (n = cap) && bool_decide (n * 2 ≤ maxWaitEventsStop)%nat.

(** The capacity the loop goes on with after an answer of [EpollWait]. *)
Definition next_cap (r : Z + list unix_EpollEvent) (cap : nat) : nat :=
  match r with
  | inr ready => if grows (length ready) cap then (cap * 2)%nat else cap
  | inl _ => cap
  end.

(** Every call of [EpollWait] is made with the capacity the call before it
    has left. *)
Fixpoint chain (cap : nat) (cs : list (nat * (Z + list unix_EpollEvent))) : Prop :=
  match cs with
  | [] => True
  | (c, r) :: cs' => c = cap ∧ chain (next_cap r cap) cs'
  end.

(** What the [for] of [wait] logs, and what it logs after [EpollWait]. *)
Definition body_ev (e : Ev) : bool :=
  match e with
  | EvRLock | EvRUnlock | EvCall _ _ | EvOnError _ _ | EvMake _ => true
  | _ => false
  end.

Definition loop_ev (e : Ev) : bool :=
  match e with
  | EvEpollWait _ _ _ _ => true
  | _ => body_ev e
  end.

(** What the deferred function of [wait] logs. *)
Definition cleanup_log (h : Handler) (fd : Z) (r_close : option Z) : list Ev :=
  EvClose fd r_close
  :: match r_close with
     | Some e => [EvOnError h (Errno e)]
     | None => []
     end
  ++ [EvChanClose].

(** The handles that were written with success. *)
Definition written (tr : list Ev) : list Z :=
  omap (λ e, match e with EvWrite fd _ (inr _) => Some fd | _ => None end) tr.

(** The wake handle is among the ready entries. *)
Definition has_wake (eventFd : Z) (ready : list unix_EpollEvent) : bool :=
  existsb (λ e, bool_decide (int (Fd e) = eventFd)) ready.

Section Netpoll.

(** [temporaryErr], which tells the failures of [EpollWait] that are to be
    retried, is in a file of the package that is not at hand. *)
Variable temporaryErr : error → bool.

(** The order in which a [range] visits a map: some enumeration of its
    entries. *)
Variable range_order : gmap Z Func → list (Z * Func).
Hypothesis range_order_perm : ∀ m, range_order m ≡ₚ map_to_list m.

Definition map_range (t : option (gmap Z Func)) : list (Z * Func) :=
  match t with
  | Some m => range_order m
  | None => []
  end.

(** *** [Close] *)

Definition Close (r_write : Z + Z) (bg : M Epoll unit) (r_close : option Z)
    : M Epoll (option error) :=
  mu_Lock ;;;
  closed <- gets ep_closed ;;
  if closed : bool then
    mu_Unlock ;;; ret (Some ErrClosed)
  else
  store_closed true ;;;
  eventFd <- gets ep_eventFd ;;
  w <- unix_Write eventFd closeBytes r_write ;;
  match w with
  | inl e => mu_Unlock ;;; ret (Some (Errno e))
  | inr _ =>
    mu_Unlock ;;;
    waitDone_recv bg ;;;
    eventFd <- gets ep_eventFd ;;
    err <- unix_Close eventFd r_close ;;
    match err with
    | Some err => ret (Some err)
    | None =>
      mu_Lock ;;;
      callbacks <- gets ep_callbacks ;;
      store_callbacks_nil ;;;
      mu_Unlock ;;;
      for_range (map_range callbacks) (λ '(_, cb),
        match cb with
        | Some cb => call cb _EPOLLCLOSED
        | None => ret tt
        end) ;;;
      ret None
    end
  end.

(** *** [wait] *)

(** One turn of the [for] of [wait], given the answer of [EpollWait]. *)
Definition wait_iter (onError : Handler) (r : Z + list unix_EpollEvent)
    (l : Locals) : M Epoll LoopCtl :=
  epfd <- gets ep_fd ;;
  res <- unix_EpollWait epfd (length (events l)) (-1) r ;;
  match res with
  | inl e =>
    if temporaryErr (Errno e) then ret (Continue l)
    else onError_call onError (Errno e) ;;; ret Return
  | inr ready =>
    let n := length ready in
    let events := fill ready (events l) in
    match reslice n (callbacks l) with
    | None => panic "slice bounds out of range"
    | Some callbacks =>
      mu_RLock ;;;
      found <- resolve n 0 events callbacks ;;
      match found with
      | None => ret Return
      | Some callbacks =>
        mu_RUnlock ;;;
        callbacks <- dispatch n 0 events callbacks ;;
        if bool_decide (n = length events) && bool_decide (n * 2 ≤ maxWaitEventsStop)%nat
        then
          emit (EvMake (n * 2)) ;;;
          ret (Continue {| events := make_events (n * 2);
                           callbacks := make_callbacks (n * 2) |})
        else ret (Continue {| events := events; callbacks := callbacks |})
      end
    end
  end.

(** The [for] of [wait] over the answers the kernel gives; when there is
    none left the goroutine is blocked in [EpollWait]. *)
Fixpoint wait_loop (onError : Handler) (script : list (Z + list unix_EpollEvent))
    (l : Locals) : M Epoll unit :=
  match script with
  | [] => block
  | r :: script' =>
    c <- wait_iter onError r l ;;
    match c with
    | Continue l' => wait_loop onError script' l'
    | Return => ret tt
    end
  end.

(** The deferred function of [wait]. *)
Definition wait_cleanup (onError : Handler) (r_close : option Z) : M Epoll unit :=
  epfd <- gets ep_fd ;;
  err <- unix_Close epfd r_close ;;
  match err with
  | Some err => onError_call onError err
  | None => ret tt
  end ;;;
  waitDone_close.

Definition wait (onError : Handler) (script : list (Z + list unix_EpollEvent))
    (r_close : option Z) : M Epoll unit :=
  defer (wait_cleanup onError r_close) (
    emit (EvMake maxWaitEventsBegin) ;;;
    wait_loop onError script
      {| events := make_events maxWaitEventsBegin;
         callbacks := make_callbacks maxWaitEventsBegin |}).

(** *** The calls of a client *)

Inductive Call :=
| CallAdd (fd : Z) (events : EpollEvent) (cb : Func) (r : option Z)
| CallDel (fd : Z) (r : option Z)
| CallMod (fd : Z) (events : EpollEvent) (r : option Z)
| CallClose (r_write : Z + Z) (bg : M Epoll unit) (r_close : option Z).

Definition exec (c : Call) : M Epoll (option error) :=
  match c with
  | CallAdd fd events cb r => Add fd events cb r
  | CallDel fd r => Del fd r
  | CallMod fd events r => Mod fd events r
  | CallClose r_write bg r_close => Close r_write bg r_close
  end.

Fixpoint exec_all (cs : list Call) : M Epoll (list (option error)) :=
  match cs with
  | [] => ret []
  | c :: cs' =>
    err <- exec c ;;
    errs <- exec_all cs' ;;
    ret (err :: errs)
  end.

(** The lock operations of a call on a closed instance. *)
Definition closed_log (c : Call) : list Ev :=
  match c with
  | CallMod _ _ _ => [EvRLock; EvRUnlock]
  | _ => [EvLock; EvUnlock]
  end.

(** ** Proofs *)

(** Unfolding a method down to the worlds it goes through. *)
Ltac go_unfold :=
  cbv [Add Del Mod Close exec run bind ret gets emit modify defer panic block
       mu_Lock mu_Unlock mu_RLock mu_RUnlock map_store map_delete
       store_closed store_callbacks_nil waitDone_recv waitDone_close
       unix_EpollCreate1 unix_Eventfd2 unix_EpollCtl unix_EpollWait
       unix_Write unix_Close call onError_call].

Ltac go_log := repeat rewrite <- app_assoc; simpl app.

Ltac go_simpl := progress cbn.

(** Running a method to its end, rewriting with [tac] on the way. *)
Ltac go tac := go_unfold; repeat first [go_simpl | progress tac].

(** *** A closed instance answers [ErrClosed] *)

Lemma exec_closed (c : Call) (w : World Epoll) :
  ep_closed (inst w) = true →
  exec c w = (Ok (Some ErrClosed), mkWorld (inst w) (log w ++ closed_log c)).
Proof.
  intros Hc. destruct w as [ep tr]. simpl in Hc.
  destruct c; go ltac:(rewrite Hc); by go_log.
Qed.

Lemma exec_all_closed (cs : list Call) (w : World Epoll) :
  ep_closed (inst w) = true →
  exec_all cs w =
    (Ok (replicate (length cs) (Some ErrClosed)),
     mkWorld (inst w) (log w ++ concat (closed_log <$> cs))).
Proof.
  revert w. induction cs as [|c cs IH]; intros w Hc; simpl.
  - destruct w. unfold ret. simpl. by rewrite app_nil_r.
  - unfold bind at 1. rewrite (exec_closed c w Hc).
    unfold bind at 1. rewrite IH by done.
    unfold ret. simpl. by rewrite <- app_assoc.
Qed.

Lemma closed_log_no_calls (cs : list Call) :
  calls (concat (closed_log <$> cs)) = [] ∧
  syscalls (concat (closed_log <$> cs)) = [].
Proof.
  induction cs as [|c cs [IH1 IH2]]; [done|].
  rewrite fmap_cons. cbn [concat]. unfold calls, syscalls in *.
  rewrite omap_app, filter_app, IH1, IH2.
  by destruct c.
Qed.

(** C5. [Close] on an instance that is already closed returns [ErrClosed];
    it takes and releases the lock and does nothing else: the instance is
    left as it was, no callback is invoked, and no system call is made
    (nothing is written to the wake handle, no handle is closed). *)
Theorem Close_closed_is_noop (ep : Epoll) (r_write : Z + Z)
    (bg : M Epoll unit) (r_close : option Z) :
  ep_closed ep = true →
  run (Close r_write bg r_close) ep
    = (Ok (Some ErrClosed), mkWorld ep [EvLock; EvUnlock]) ∧
  calls [EvLock; EvUnlock] = [] ∧
  syscalls [EvLock; EvUnlock] = [].
Proof.
  intros Hc. split; [|done].
  by go ltac:(rewrite Hc).
Qed.

(** C8. On an open instance, [Del] and [Mod] of a handle that is not in the
    table return [ErrNotRegistered]; they take and release the lock and do
    nothing else: the table is left as it was and no system call is made. *)
Theorem Del_Mod_not_registered (ep : Epoll) (fd : Z) (events : EpollEvent)
    (r : option Z) :
  ep_closed ep = false →
  map_has (ep_callbacks ep) fd = false →
  run (Del fd r) ep
    = (Ok (Some ErrNotRegistered), mkWorld ep [EvLock; EvUnlock]) ∧
  run (Mod fd events r) ep
    = (Ok (Some ErrNotRegistered), mkWorld ep [EvRLock; EvRUnlock]) ∧
  syscalls [EvLock; EvUnlock] = [] ∧
  syscalls [EvRLock; EvRUnlock] = [].
Proof.
  intros Hc Hfd. repeat split; by go ltac:(rewrite ?Hc, ?Hfd).
Qed.


(** C9. When the write to the wake handle fails in the first [Close],
    [Close] returns the error of the write with the closed flag already
    set: the calls that follow ([Add], [Del], [Mod], [Close], any number of
    them) all return [ErrClosed], no callback is invoked by this [Close] or
    by a later call, the table keeps its entries, nothing has been written
    to the wake handle, and [Close] has not waited for the loop. *)
Theorem Close_write_failure_not_atomic (ep : Epoll) (e : Z)
    (bg : M Epoll unit) (r_close : option Z) :
  ep_closed ep = false →
  let ep' := set_closed true ep in
  let tr := [EvLock; EvSetClosed true;
             EvWrite (ep_eventFd ep) closeBytes (inl e); EvUnlock] in
  run (Close (inl e) bg r_close) ep = (Ok (Some (Errno e)), mkWorld ep' tr) ∧
  ep_closed ep' = true ∧
  ep_callbacks ep' = ep_callbacks ep ∧
  calls tr = [] ∧
  written tr = [] ∧
  (EvChanRecv ∉ tr) ∧
  (∀ cs : list Call,
    ∃ tr', exec_all cs (mkWorld ep' tr)
             = (Ok (replicate (length cs) (Some ErrClosed)),
                mkWorld ep' (tr ++ tr')) ∧
           calls tr' = [] ∧ syscalls tr' = []).
Proof.
  intros Hc ep' tr. split_and!; try done.
  - by go ltac:(rewrite Hc).
  - subst tr. rewrite !not_elem_of_cons. split_and!; try done.
    apply not_elem_of_nil.
  - intros cs. eexists. split.
    + by apply exec_all_closed.
    + apply closed_log_no_calls.
Qed.

(** *** The two loops of an iteration *)

Lemma slot_calls_lookup (t : option (gmap Z Func)) (ready : list unix_EpollEvent) :
  slot_calls (lookup_ready t <$> ready) ready = ready_calls t ready.
Proof.
  unfold slot_calls, ready_calls.
  induction ready as [|e ready IH]; [done|].
  cbn. rewrite IH. done.
Qed.

Lemma calls_call_events (cs : list (Cb * EpollEvent)) :
  calls (call_events cs) = cs.
Proof.
  unfold calls, call_events.
  induction cs as [|[cb evt] cs IH]; [done|]. cbn. by rewrite IH.
Qed.

Lemma slice_set_ok (s : slice) (i : nat) (x : Func) :
  (i < len s)%nat → (len s ≤ length (arr s))%nat →
  slice_set s i x = Some {| arr := <[i := x]> (arr s); len := len s |}.
Proof. intros. unfold slice_set. rewrite decide_True; [done|lia]. Qed.

Lemma slice_get_ok (s : slice) (i : nat) :
  (i < len s)%nat → slice_get s i = arr s !! i.
Proof. intros. unfold slice_get. by rewrite decide_True. Qed.

Lemma take_S_drop {A} (l : list A) (i k : nat) (x : A) :
  l !! i = Some x → take (S k) (drop i l) = x :: take k (drop (S i) l).
Proof.
  intros Hx. rewrite (drop_S l x i) by done. done.
Qed.

Lemma resolve_ok (evs : list unix_EpollEvent) (k : nat) :
  ∀ (i : nat) (cbs : slice) (w : World Epoll),
  (i + k ≤ length evs)%nat → (i + k ≤ len cbs)%nat →
  (len cbs ≤ length (arr cbs))%nat →
  has_wake (ep_eventFd (inst w)) (take k (drop i evs)) = false →
  resolve k i evs cbs w =
    (Ok (Some {| arr := take i (arr cbs)
                        ++ (lookup_ready (ep_callbacks (inst w)) <$> take k (drop i evs))
                        ++ drop (i + k) (arr cbs);
                 len := len cbs |}), w).
Proof.
  induction k as [|k IH]; intros i cbs w Hevs Hlen Hcap Hwake.
  - cbn. rewrite take_0, Nat.add_0_r. cbn. rewrite take_drop.
    by destruct cbs.
  - destruct (lookup_lt_is_Some_2 evs i) as [e He]; [lia|].
    rewrite (take_S_drop _ _ _ _ He) in Hwake |- *.
    cbn in Hwake. apply orb_false_iff in Hwake as [Hfd Hwake].
    cbn [resolve]. rewrite He. go_unfold. rewrite Hfd.
    rewrite slice_set_ok by lia.
    rewrite IH; cbn [arr len]; rewrite ?length_insert; try done; try lia.
    rewrite (take_S_r _ _ (lookup_ready (ep_callbacks (inst w)) e))
      by (apply list_lookup_insert_eq; lia).
    rewrite take_insert_ge, drop_insert_lt by lia.
    by rewrite <- app_assoc, fmap_cons, Nat.add_succ_r.
Qed.

Lemma resolve_wake (evs : list unix_EpollEvent) (k : nat) :
  ∀ (i : nat) (cbs : slice) (w : World Epoll),
  (i + k ≤ length evs)%nat → (i + k ≤ len cbs)%nat →
  (len cbs ≤ length (arr cbs))%nat →
  has_wake (ep_eventFd (inst w)) (take k (drop i evs)) = true →
  resolve k i evs cbs w = (Ok None, mkWorld (inst w) (log w ++ [EvRUnlock])).
Proof.
  induction k as [|k IH]; intros i cbs w Hevs Hlen Hcap Hwake.
  - by rewrite take_0 in Hwake.
  - destruct (lookup_lt_is_Some_2 evs i) as [e He]; [lia|].
    rewrite (take_S_drop _ _ _ _ He) in Hwake.
    cbn in Hwake. cbn [resolve]. rewrite He. go_unfold.
    destruct (bool_decide (int (Fd e) = ep_eventFd (inst w))) eqn:Hfd; [done|].
    cbn in Hwake.
    rewrite slice_set_ok by lia.
    rewrite IH; cbn [arr len]; rewrite ?length_insert; try done; lia.
Qed.

Lemma dispatch_ok (evs : list unix_EpollEvent) (k : nat) :
  ∀ (i : nat) (cbs : slice) (w : World Epoll),
  (i + k ≤ length evs)%nat → (i + k ≤ len cbs)%nat →
  (len cbs ≤ length (arr cbs))%nat →
  dispatch k i evs cbs w =
    (Ok {| arr := take i (arr cbs) ++ replicate k None ++ drop (i + k) (arr cbs);
           len := len cbs |},
     mkWorld (inst w)
       (log w ++ call_events (slot_calls (take k (drop i (arr cbs)))
                                         (take k (drop i evs))))).
Proof.
  induction k as [|k IH]; intros i cbs w Hevs Hlen Hcap.
  - cbn. rewrite !take_0, Nat.add_0_r. cbn. rewrite take_drop, app_nil_r.
    by destruct cbs, w.
  - destruct (lookup_lt_is_Some_2 evs i) as [e He]; [lia|].
    destruct (lookup_lt_is_Some_2 (arr cbs) i) as [x Hx]; [lia|].
    rewrite (take_S_drop _ _ _ _ He), (take_S_drop _ _ _ _ Hx).
    cbn [dispatch]. rewrite slice_get_ok, Hx by lia.
    destruct x as [cb|].
    + rewrite He. go_unfold. rewrite slice_set_ok by lia.
      rewrite IH; cbn [arr len inst log]; rewrite ?length_insert; try lia.
      rewrite (take_S_r _ _ (None : Func)) by (apply list_lookup_insert_eq; lia).
      rewrite take_insert_ge by lia. rewrite !drop_insert_lt by lia.
      by rewrite <- !app_assoc, Nat.add_succ_r.
    + rewrite IH by lia.
      by rewrite (take_S_r _ _ _ Hx), <- app_assoc, Nat.add_succ_r.
Qed.

(** *** One iteration of the wait loop *)

Lemma length_fill (ready buf : list unix_EpollEvent) :
  length (fill ready buf) = length buf.
Proof.
  unfold fill. rewrite length_take, length_app, length_drop. lia.
Qed.

Lemma fill_le (ready buf : list unix_EpollEvent) :
  (length ready ≤ length buf)%nat →
  fill ready buf = ready ++ drop (length ready) buf.
Proof.
  intros Hn. unfold fill. apply take_ge.
  rewrite length_app, length_drop. lia.
Qed.

Lemma reslice_ok (n : nat) (s : slice) :
  (n ≤ length (arr s))%nat → reslice n s = Some {| arr := arr s; len := n |}.
Proof. intros. unfold reslice. by rewrite decide_True. Qed.

(** The iteration of a batch without the wake handle. *)
Lemma wait_iter_ready (h : Handler) (ready : list unix_EpollEvent)
    (l : Locals) (w : World Epoll) :
  (length ready ≤ length (events l))%nat →
  locals_ok l →
  has_wake (ep_eventFd (inst w)) ready = false →
  let n := length ready in
  let grow := grows n (length (events l)) in
  wait_iter h (inr ready) l w =
    (Ok (Continue
           (if grow then
              {| events := make_events (n * 2);
                 callbacks := make_callbacks (n * 2) |}
            else
              {| events := ready ++ drop n (events l);
                 callbacks := {| arr := replicate n None
                                        ++ drop n (arr (callbacks l));
                                 len := n |} |})),
     mkWorld (inst w)
       (log w
        ++ [EvEpollWait (ep_fd (inst w)) (length (events l)) (-1) (inr ready);
            EvRLock; EvRUnlock]
        ++ call_events (ready_calls (ep_callbacks (inst w)) ready)
        ++ (if grow then [EvMake (n * 2)] else []))).
Proof.
  intros Hn Hok Hwake n grow. unfold locals_ok in Hok.
  unfold wait_iter. go_unfold. cbn [inst log].
  rewrite reslice_ok by lia. rewrite fill_le by done.
  rewrite resolve_ok; cbn [arr len inst log];
    rewrite ?drop_0, ?take_app_length, ?length_app, ?length_drop;
    try done; try lia.
  rewrite dispatch_ok; cbn [arr len inst log];
    rewrite ?length_app, ?length_drop, ?length_fmap; try lia.
  rewrite !drop_0, !take_0, !take_app_length. cbn [app].
  rewrite (take_app_length' (_ <$> ready)) by by rewrite length_fmap.
  rewrite slot_calls_lookup.
  rewrite (drop_app_length' (_ <$> ready)) by by rewrite length_fmap.
  fold n. replace (n + (length (events l) - n))%nat with (length (events l)) by lia.
  fold (grows n (length (events l))). fold grow.
  destruct grow; cbn [inst log Nat.add]; by rewrite ?app_nil_r, <- ?app_assoc.
Qed.

(** The iteration of a batch with the wake handle. *)
Lemma wait_iter_wake (h : Handler) (ready : list unix_EpollEvent)
    (l : Locals) (w : World Epoll) :
  (length ready ≤ length (events l))%nat →
  locals_ok l →
  has_wake (ep_eventFd (inst w)) ready = true →
  wait_iter h (inr ready) l w =
    (Ok Return,
     mkWorld (inst w)
       (log w
        ++ [EvEpollWait (ep_fd (inst w)) (length (events l)) (-1) (inr ready);
            EvRLock; EvRUnlock])).
Proof.
  intros Hn Hok Hwake. unfold locals_ok in Hok.
  unfold wait_iter. go_unfold. cbn [inst log].
  rewrite reslice_ok by lia. rewrite fill_le by done.
  rewrite resolve_wake; cbn [arr len inst log];
    rewrite ?drop_0, ?take_app_length, ?length_app, ?length_drop;
    try done; try lia.
  by rewrite <- !app_assoc.
Qed.

(** The iteration of a failed [EpollWait]. *)
Lemma wait_iter_error (h : Handler) (e : Z) (l : Locals) (w : World Epoll) :
  wait_iter h (inl e) l w =
    if temporaryErr (Errno e) then
      (Ok (Continue l),
       mkWorld (inst w)
         (log w ++ [EvEpollWait (ep_fd (inst w)) (length (events l)) (-1) (inl e)]))
    else
      (Ok Return,
       mkWorld (inst w)
         (log w ++ [EvEpollWait (ep_fd (inst w)) (length (events l)) (-1) (inl e);
                    EvOnError h (Errno e)])).
Proof.
  unfold wait_iter. go_unfold. cbn [inst log].
  destruct (temporaryErr (Errno e)); cbn [inst log]; by rewrite <- ?app_assoc.
Qed.

Lemma wait_iter_overflow (h : Handler) (ready : list unix_EpollEvent)
    (l : Locals) (w : World Epoll) :
  (length (events l) < length ready)%nat →
  locals_ok l →
  wait_iter h (inr ready) l w =
    (Panic "slice bounds out of range",
     mkWorld (inst w)
       (log w ++ [EvEpollWait (ep_fd (inst w)) (length (events l)) (-1) (inr ready)])).
Proof.
  intros Hn Hok. unfold locals_ok in Hok.
  unfold wait_iter. go_unfold. cbn [inst log].
  unfold reslice. rewrite decide_False by lia. done.
Qed.

Lemma body_ev_call_events (cs : list (Cb * EpollEvent)) :
  Forall body_ev (call_events cs).
Proof.
  unfold call_events. apply Forall_fmap, Forall_forall.
  by intros [cb evt] _.
Qed.

(** What an iteration logs and leaves, whatever the kernel answers. *)
Lemma wait_iter_summary (h : Handler) (r : Z + list unix_EpollEvent)
    (l : Locals) (w : World Epoll) :
  locals_ok l →
  ∃ tr,
    snd (wait_iter h r l w)
      = mkWorld (inst w)
          (log w ++ EvEpollWait (ep_fd (inst w)) (length (events l)) (-1) r :: tr) ∧
    Forall body_ev tr ∧
    match fst (wait_iter h r l w) with
    | Ok (Continue l') =>
        locals_ok l' ∧ length (events l') = next_cap r (length (events l))
    | _ => True
    end.
Proof.
  intros Hok. destruct r as [e|ready].
  - rewrite wait_iter_error. destruct (temporaryErr (Errno e)); cbn.
    + by exists [].
    + exists [EvOnError h (Errno e)]. split_and!; try done.
      by repeat constructor.
  - destruct (decide (length ready ≤ length (events l))%nat) as [Hn|Hn].
    + destruct (has_wake (ep_eventFd (inst w)) ready) eqn:Hwake.
      * rewrite wait_iter_wake by done. cbn.
        exists [EvRLock; EvRUnlock]. split_and!; try done.
        by repeat constructor.
      * rewrite wait_iter_ready by done. cbn [fst snd].
        eexists. split; [reflexivity|]. split.
        { repeat (apply Forall_cons; split; [done|]).
          apply Forall_app. split; [apply body_ev_call_events|].
          destruct (grows _ _); by repeat constructor. }
        unfold locals_ok, next_cap, grows.
        destruct (bool_decide (length ready = _)) eqn:Heq; cbn [andb].
        2:{ cbn [events callbacks arr len].
            rewrite !length_app, !length_drop, length_replicate.
            unfold locals_ok, Func in *. lia. }
        apply bool_decide_eq_true_1 in Heq.
        destruct (bool_decide (length ready * 2 ≤ _)%nat);
          cbn [events callbacks arr len make_callbacks].
        { unfold make_events. rewrite !length_replicate. lia. }
        rewrite !length_app, !length_drop, length_replicate.
        unfold locals_ok, Func in *. lia.
    + rewrite wait_iter_overflow by (done || lia). cbn. by exists [].
Qed.

(** *** The whole loop *)

Lemma wait_calls_app (tr1 tr2 : list Ev) :
  wait_calls (tr1 ++ tr2) = wait_calls tr1 ++ wait_calls tr2.
Proof. apply omap_app. Qed.

Lemma wait_calls_body (tr : list Ev) :
  Forall body_ev tr → wait_calls tr = [].
Proof.
  induction 1 as [|e tr He _ IH]; [done|].
  unfold wait_calls in *. cbn. rewrite IH. by destruct e.
Qed.

Lemma body_ev_loop_ev (tr : list Ev) : Forall body_ev tr → Forall loop_ev tr.
Proof. intros H. eapply Forall_impl; [done|]. by intros []. Qed.

Lemma wait_loop_summary (h : Handler) (script : list (Z + list unix_EpollEvent)) :
  ∀ (l : Locals) (w : World Epoll),
  locals_ok l →
  ∃ tr,
    snd (wait_loop h script l w) = mkWorld (inst w) (log w ++ tr) ∧
    Forall loop_ev tr ∧
    chain (length (events l)) (wait_calls tr).
Proof.
  induction script as [|r script IH]; intros l w Hok.
  - exists []. destruct w. cbn. by rewrite app_nil_r.
  - cbn [wait_loop]. unfold bind at 1.
    destruct (wait_iter_summary h r l w Hok) as (tr & Hw & Hbody & Hnext).
    destruct (wait_iter h r l w) as [res w1]. cbn [fst snd] in *. subst w1.
    assert (Hcalls : ∀ tr2,
      wait_calls (EvEpollWait (ep_fd (inst w)) (length (events l)) (-1) r :: tr ++ tr2)
      = (length (events l), r) :: wait_calls tr2).
    { intros tr2. unfold wait_calls at 1. cbn.
      fold (wait_calls (tr ++ tr2)).
      by rewrite wait_calls_app, (wait_calls_body tr). }
    destruct res as [[l'|]|msg|];
      [| exists (EvEpollWait (ep_fd (inst w)) (length (events l)) (-1) r :: tr);
         pose proof (Hcalls []) as Hcalls0; rewrite app_nil_r in Hcalls0;
         split_and!;
         [ done
         | apply Forall_cons; split; [done|]; by apply body_ev_loop_ev
         | by rewrite Hcalls0 ] .. ].
    destruct Hnext as [Hok' Hcap].
    destruct (IH l' (mkWorld (inst w)
      (log w ++ EvEpollWait (ep_fd (inst w)) (length (events l)) (-1) r :: tr)) Hok')
      as (tr2 & Hw2 & Hloop2 & Hchain2).
    exists (EvEpollWait (ep_fd (inst w)) (length (events l)) (-1) r :: tr ++ tr2).
    rewrite Hw2. cbn [inst log]. split_and!.
    + by rewrite <- app_assoc.
    + apply Forall_cons. split; [done|].
      apply Forall_app. split; [by apply body_ev_loop_ev|done].
    + rewrite Hcalls. cbn. split; [done|]. by rewrite <- Hcap.
Qed.

Lemma wait_cleanup_ok (h : Handler) (r_close : option Z) (w : World Epoll) :
  ep_waitDone (inst w) = false →
  wait_cleanup h r_close w =
    (Ok tt, mkWorld (set_waitDone true (inst w))
              (log w ++ cleanup_log h (ep_fd (inst w)) r_close)).
Proof.
  intros Hd. unfold wait_cleanup, cleanup_log.
  destruct r_close; go ltac:(rewrite Hd); by go_log.
Qed.

(** [wait] is its loop and then, unless the loop is blocked, the deferred
    function. *)
Lemma wait_unfold (h : Handler) (script : list (Z + list unix_EpollEvent))
    (r_close : option Z) (ep : Epoll) :
  ep_waitDone ep = false →
  let l0 := {| events := make_events maxWaitEventsBegin;
               callbacks := make_callbacks maxWaitEventsBegin |} in
  let body := wait_loop h script l0 (mkWorld ep [EvMake maxWaitEventsBegin]) in
  inst (snd body) = ep ∧
  run (wait h script r_close) ep =
    match fst body with
    | Blocked => (Blocked, snd body)
    | res => (res, mkWorld (set_waitDone true ep)
                     (log (snd body) ++ cleanup_log h (ep_fd ep) r_close))
    end.
Proof.
  intros Hd l0 body.
  assert (Hok : locals_ok l0).
  { unfold locals_ok, l0, make_events, make_callbacks. cbn [arr callbacks events].
    by rewrite !length_replicate. }
  destruct (wait_loop_summary h script l0 (mkWorld ep [EvMake maxWaitEventsBegin]) Hok)
    as (tr & Hw & _). fold body in Hw.
  split; [by rewrite Hw|].
  unfold wait, run, defer. unfold bind at 1, emit at 1. cbn [inst log app].
  fold l0. fold body. destruct body as [res w1]. cbn [fst snd] in *. subst w1.
  destruct res as [[]|msg|]; [| |done];
    rewrite wait_cleanup_ok by done; done.
Qed.

Lemma loop_ev_quiet (tr : list Ev) :
  Forall loop_ev tr →
  occurrences EvChanClose tr = O ∧ closed_handles tr = [].
Proof.
  induction 1 as [|e tr He _ [IH1 IH2]]; [done|].
  unfold occurrences, closed_handles in *. rewrite filter_cons.
  destruct e; try done; cbn; rewrite ?IH2; case_decide; done.
Qed.

Lemma cleanup_log_once (h : Handler) (fd : Z) (r_close : option Z) :
  occurrences EvChanClose (cleanup_log h fd r_close) = 1%nat ∧
  closed_handles (cleanup_log h fd r_close) = [fd].
Proof. destruct r_close; by vm_compute. Qed.

Lemma occurrences_app (e : Ev) (tr1 tr2 : list Ev) :
  occurrences e (tr1 ++ tr2) = (occurrences e tr1 + occurrences e tr2)%nat.
Proof. unfold occurrences. by rewrite filter_app, length_app. Qed.

Lemma closed_handles_app (tr1 tr2 : list Ev) :
  closed_handles (tr1 ++ tr2) = closed_handles tr1 ++ closed_handles tr2.
Proof. apply omap_app. Qed.

Lemma has_wake_true (eventFd : Z) (ready : list unix_EpollEvent) (e : unix_EpollEvent) :
  e ∈ ready → int (Fd e) = eventFd → has_wake eventFd ready = true.
Proof.
  intros He Hfd. unfold has_wake. apply existsb_exists.
  exists e. split; [by apply list_elem_of_In|]. by apply bool_decide_eq_true_2.
Qed.

Lemma has_wake_false (eventFd : Z) (ready : list unix_EpollEvent) :
  (∀ e, e ∈ ready → int (Fd e) ≠ eventFd) → has_wake eventFd ready = false.
Proof.
  intros Hne. destruct (has_wake eventFd ready) eqn:Hw; [|done].
  apply existsb_exists in Hw as (e & He & Hfd).
  apply bool_decide_eq_true_1 in Hfd. apply list_elem_of_In in He.
  by destruct (Hne e He).
Qed.

(** C4. When the batch of an iteration holds the wake handle (the kernel
    never reports more entries than the buffer has room for), the loop
    takes the read lock, releases it and returns, whatever the kernel would
    have answered next: the iteration logs the call of [EpollWait], the
    lock and its release and nothing else, so no callback of the batch is
    invoked, before or after the wake handle. *)
Theorem wait_wake_terminates (h : Handler) (ready : list unix_EpollEvent)
    (e : unix_EpollEvent) (script : list (Z + list unix_EpollEvent))
    (l : Locals) (w : World Epoll) :
  locals_ok l →
  (length ready ≤ length (events l))%nat →
  e ∈ ready →
  int (Fd e) = ep_eventFd (inst w) →
  let tr := [EvEpollWait (ep_fd (inst w)) (length (events l)) (-1) (inr ready);
             EvRLock; EvRUnlock] in
  wait_iter h (inr ready) l w = (Ok Return, mkWorld (inst w) (log w ++ tr)) ∧
  wait_loop h (inr ready :: script) l w = (Ok tt, mkWorld (inst w) (log w ++ tr)) ∧
  calls tr = [].
Proof.
  intros Hok Hn He Hfd tr.
  assert (Hiter : wait_iter h (inr ready) l w
                  = (Ok Return, mkWorld (inst w) (log w ++ tr))).
  { apply wait_iter_wake; try done. by eapply has_wake_true. }
  split_and!; [done| |done].
  cbn [wait_loop]. unfold bind. by rewrite Hiter.
Qed.

(** C10. In an iteration whose batch does not hold the wake handle (and is
    not larger than the buffer), the loop looks every ready handle up under
    the read lock, releases the lock, and invokes, in the order of the
    batch, the function of every entry whose handle has one in the table,
    with the mask the kernel reported; an entry whose handle is not in the
    table, or is there with a nil function, is passed over and the
    iteration goes on.  After an invocation the slot is nil before the
    next entry is looked at, and when the iteration ends every slot of the
    batch is nil. *)
Theorem wait_dispatch_skips_nil (h : Handler) (ready : list unix_EpollEvent)
    (l : Locals) (w : World Epoll) :
  locals_ok l →
  (length ready ≤ length (events l))%nat →
  (∀ e, e ∈ ready → int (Fd e) ≠ ep_eventFd (inst w)) →
  (∃ l' tr,
    wait_iter h (inr ready) l w
      = (Ok (Continue l'),
         mkWorld (inst w)
           (log w
            ++ [EvEpollWait (ep_fd (inst w)) (length (events l)) (-1) (inr ready);
                EvRLock; EvRUnlock]
            ++ call_events (ready_calls (ep_callbacks (inst w)) ready)
            ++ tr)) ∧
    calls tr = [] ∧
    (∀ i, (i < length ready)%nat → arr (callbacks l') !! i = Some None)) ∧
  (∀ k i evs cbs cb e w0,
    slice_get cbs i = Some (Some cb) → evs !! i = Some e →
    (len cbs ≤ length (arr cbs))%nat →
    dispatch (S k) i evs cbs w0
      = dispatch k (S i) evs {| arr := <[i := None]> (arr cbs); len := len cbs |}
          (mkWorld (inst w0) (log w0 ++ [EvCall cb (Events e)]))).
Proof.
  intros Hok Hn Hne. split.
  - rewrite wait_iter_ready; [|done|done|by apply has_wake_false].
    destruct (grows _ _).
    + do 2 eexists. split_and!; [done|done|].
      intros i Hi. cbn [callbacks arr make_callbacks].
      apply lookup_replicate_2. lia.
    + eexists. exists []. split_and!; [done|done|].
      intros i Hi. cbn [callbacks arr].
      rewrite lookup_app_l by (rewrite length_replicate; lia).
      by apply lookup_replicate_2.
  - intros k i evs cbs cb e w0 Hslot He Hcap.
    cbn [dispatch]. rewrite Hslot, He.
    unfold slice_get in Hslot. case_decide; [|done].
    rewrite slice_set_ok by done. by go_unfold.
Qed.

(** *** The capacity of the batch buffers *)

Lemma wait_cleanup_log (h : Handler) (r_close : option Z) (w : World Epoll) :
  ∃ tr, log (snd (wait_cleanup h r_close w)) = log w ++ tr ∧ wait_calls tr = [].
Proof.
  unfold wait_cleanup.
  destruct r_close, (ep_waitDone (inst w)) eqn:Hd;
    go ltac:(rewrite Hd); go_log; by eexists.
Qed.

Lemma wait_calls_wait (h : Handler) (script : list (Z + list unix_EpollEvent))
    (r_close : option Z) (ep : Epoll) :
  wait_calls (log (snd (run (wait h script r_close) ep)))
  = wait_calls (log (snd (wait_loop h script
      {| events := make_events maxWaitEventsBegin;
         callbacks := make_callbacks maxWaitEventsBegin |}
      (mkWorld ep [EvMake maxWaitEventsBegin])))).
Proof.
  unfold wait, run, defer. unfold bind at 1, emit at 1. cbn [inst log app].
  destruct (wait_loop h script _ _) as [res w1].
  destruct (wait_cleanup_log h r_close w1) as (tr & Htr & Hq).
  destruct (wait_cleanup h r_close w1) as [res2 w2]. cbn [snd] in *.
  destruct res as [[]|msg|], res2 as [[]|msg2|]; cbn [snd];
    by rewrite ?Htr, ?wait_calls_app, ?Hq, ?app_nil_r.
Qed.

Lemma next_cap_bounds (r : Z + list unix_EpollEvent) (cap : nat) :
  (maxWaitEventsBegin ≤ cap ≤ maxWaitEventsStop)%nat →
  (maxWaitEventsBegin ≤ next_cap r cap ≤ maxWaitEventsStop)%nat ∧
  (cap ≤ next_cap r cap)%nat ∧
  (next_cap r cap = cap * 2 ↔
   ∃ ready, r = inr ready ∧ length ready = cap ∧ cap * 2 ≤ maxWaitEventsStop)%nat.
Proof.
  unfold maxWaitEventsBegin, maxWaitEventsStop. intros Hcap.
  destruct r as [e|ready]; cbn [next_cap].
  - split_and!; try lia. split; [lia|]. by intros (? & ? & _).
  - unfold grows, maxWaitEventsStop.
    destruct (bool_decide (length ready = cap)) eqn:Hn; cbn [andb].
    + apply bool_decide_eq_true_1 in Hn.
      destruct (bool_decide (length ready * 2 ≤ _)%nat) eqn:Hmax.
      * apply bool_decide_eq_true_1 in Hmax.
        split_and!; try lia. split; [|done].
        intros _. exists ready. split_and!; [done|done|lia].
      * apply bool_decide_eq_false_1 in Hmax.
        split_and!; try lia. split; [lia|].
        intros (? & [= <-] & _ & ?). lia.
    + apply bool_decide_eq_false_1 in Hn.
      split_and!; try lia. split; [lia|].
      by intros (? & [= <-] & ? & _).
Qed.

Lemma chain_lookup (cs : list (nat * (Z + list unix_EpollEvent))) :
  ∀ (cap i c c' : nat) (r r' : Z + list unix_EpollEvent),
  (maxWaitEventsBegin ≤ cap ≤ maxWaitEventsStop)%nat →
  chain cap cs →
  cs !! i = Some (c, r) → cs !! S i = Some (c', r') →
  (maxWaitEventsBegin ≤ c ≤ maxWaitEventsStop)%nat ∧ c' = next_cap r c.
Proof.
  induction cs as [|[c0 r0] cs IH]; intros cap i c c' r r' Hcap Hch Hi HSi; [done|].
  destruct Hch as [-> Hch]. destruct i as [|i].
  - injection Hi as -> ->. split; [done|].
    destruct cs as [|[c1 r1] cs]; [done|].
    injection HSi as -> ->. by destruct Hch.
  - eapply IH; [|done|done|done]. by apply next_cap_bounds.
Qed.

(** C6. An iteration that is given [n] ready entries and goes on to a next
    one (the batch fits the buffer and does not hold the wake handle) makes
    two new buffers of twice the capacity exactly when [n] is the capacity
    and twice the capacity is at most [maxWaitEventsStop] (32768);
    otherwise it keeps its buffers.  Over a whole run of [wait] the first
    call of [EpollWait] is made with a capacity of [maxWaitEventsBegin]
    (1024), and every later one with the capacity of the call before it or
    its double, the double exactly under that condition: the capacity never
    decreases. *)
Theorem wait_buffer_growth (h : Handler) :
  (∀ (ready : list unix_EpollEvent) (l : Locals) (w : World Epoll),
    locals_ok l →
    (length ready ≤ length (events l))%nat →
    (∀ e, e ∈ ready → int (Fd e) ≠ ep_eventFd (inst w)) →
    let n := length ready in
    let cap := length (events l) in
    ∃ l' tr,
      wait_iter h (inr ready) l w = (Ok (Continue l'), mkWorld (inst w) (log w ++ tr)) ∧
      length (arr (callbacks l')) = length (events l') ∧
      ((n = cap ∧ cap * 2 ≤ maxWaitEventsStop)%nat ∧
         length (events l') = (cap * 2)%nat ∧ EvMake (cap * 2) ∈ tr
       ∨ ¬ (n = cap ∧ cap * 2 ≤ maxWaitEventsStop)%nat ∧
         length (events l') = cap ∧ ∀ m, EvMake m ∉ tr)) ∧
  (∀ (script : list (Z + list unix_EpollEvent)) (r_close : option Z) (ep : Epoll),
    let cs := wait_calls (log (snd (run (wait h script r_close) ep))) in
    (∀ c r, cs !! O = Some (c, r) → c = maxWaitEventsBegin) ∧
    (∀ i c r c' r',
      cs !! i = Some (c, r) → cs !! S i = Some (c', r') →
      (c ≤ c')%nat ∧ (c' = c ∨ c' = c * 2)%nat ∧
      (c' = c * 2 ↔
       ∃ ready, r = inr ready ∧ length ready = c ∧ c * 2 ≤ maxWaitEventsStop)%nat)).
Proof.
  split.
  - intros ready l w Hok Hn Hne n cap.
    rewrite wait_iter_ready; [|done|done|by apply has_wake_false].
    fold n cap. unfold grows.
    destruct (bool_decide (n = cap)) eqn:Heq; cbn [andb];
      [destruct (bool_decide (n * 2 ≤ maxWaitEventsStop)%nat) eqn:Hmax|].
    + apply bool_decide_eq_true_1 in Heq, Hmax.
      do 2 eexists. split; [done|].
      cbn [events callbacks arr make_callbacks]. unfold make_events.
      rewrite !length_replicate. split; [done|]. left.
      rewrite <- Heq. split_and!; [done|done|done|].
      rewrite !elem_of_app. do 2 right. rewrite Heq. apply list_elem_of_here.
    + apply bool_decide_eq_true_1 in Heq. apply bool_decide_eq_false_1 in Hmax.
      do 2 eexists. split; [done|].
      cbn [events callbacks arr]. unfold locals_ok, Func in *.
      rewrite !length_app, !length_drop, length_replicate.
      split; [lia|]. right. split_and!; [lia|lia|].
      intros m. rewrite app_nil_r, elem_of_app, !elem_of_cons, elem_of_nil.
      unfold call_events. rewrite list_elem_of_fmap.
      intros [[|[|[|]]]|([] & ? & _)]; done.
    + apply bool_decide_eq_false_1 in Heq.
      do 2 eexists. split; [done|].
      cbn [events callbacks arr]. unfold locals_ok, Func in *.
      rewrite !length_app, !length_drop, length_replicate.
      split; [lia|]. right. split_and!; [lia|lia|].
      intros m. rewrite app_nil_r, elem_of_app, !elem_of_cons, elem_of_nil.
      unfold call_events. rewrite list_elem_of_fmap.
      intros [[|[|[|]]]|([] & ? & _)]; done.
  - intros script r_close ep cs.
    assert (Hchain : chain maxWaitEventsBegin cs).
    { subst cs. rewrite wait_calls_wait.
      set (l0 := {| events := make_events maxWaitEventsBegin;
                    callbacks := make_callbacks maxWaitEventsBegin |}).
      assert (Hok : locals_ok l0).
      { unfold locals_ok, l0, make_events, make_callbacks.
        cbn [arr callbacks events]. by rewrite !length_replicate. }
      destruct (wait_loop_summary h script l0
                  (mkWorld ep [EvMake maxWaitEventsBegin]) Hok)
        as (tr & Hw & Hloop & Hchain).
      replace (length (events l0)) with maxWaitEventsBegin in Hchain
        by (unfold l0, make_events; cbn [events]; by rewrite length_replicate).
      by rewrite Hw. }
    split.
    + intros c r H0. destruct cs as [|[c0 r0] cs']; [done|].
      injection H0 as -> ->. by destruct Hchain.
    + intros i c r c' r' Hi HSi.
      destruct (chain_lookup cs maxWaitEventsBegin i c c' r r') as [Hc ->];
        try done.
      { unfold maxWaitEventsBegin, maxWaitEventsStop. lia. }
      destruct (next_cap_bounds r c Hc) as (_ & Hle & Hiff).
      split_and!; [done| |done].
      destruct r as [e|ready]; cbn [next_cap]; [by left|].
      destruct (grows _ _); [by right|by left].
Qed.

(** *** Failures of [EpollWait] and the end of the loop *)

Lemma wait_iter_not_blocked (h : Handler) (r : Z + list unix_EpollEvent)
    (l : Locals) (w : World Epoll) :
  locals_ok l → fst (wait_iter h r l w) ≠ Blocked.
Proof.
  intros Hok. destruct r as [e|ready].
  - rewrite wait_iter_error. by destruct (temporaryErr (Errno e)).
  - destruct (decide (length ready ≤ length (events l))%nat) as [Hn|Hn].
    + destruct (has_wake (ep_eventFd (inst w)) ready) eqn:Hwake.
      * by rewrite wait_iter_wake.
      * by rewrite wait_iter_ready.
    + by rewrite wait_iter_overflow by (done || lia).
Qed.

(** A loop that is blocked after some answers goes on with the answers
    that follow, from the buffers and the world it has reached. *)
Lemma wait_loop_blocked_app (h : Handler) (pre : list (Z + list unix_EpollEvent)) :
  ∀ (l : Locals) (w : World Epoll),
  locals_ok l →
  fst (wait_loop h pre l w) = Blocked →
  ∃ l',
    locals_ok l' ∧
    ∀ rest, wait_loop h (pre ++ rest) l w
            = wait_loop h rest l' (snd (wait_loop h pre l w)).
Proof.
  induction pre as [|r pre IH]; intros l w Hok Hb.
  - by exists l.
  - cbn [wait_loop app] in *. unfold bind in *.
    pose proof (wait_iter_not_blocked h r l w Hok) as Hnb.
    destruct (wait_iter_summary h r l w Hok) as (tr & _ & _ & Hnext).
    destruct (wait_iter h r l w) as [res w1]. cbn [fst snd] in *.
    destruct res as [[l1|]|msg|]; try done.
    destruct Hnext as [Hok1 _]. by apply IH.
Qed.

(** The first thing a loop does with an answer is the call of [EpollWait]
    that gets it. *)
Lemma wait_loop_first_event (h : Handler) (r : Z + list unix_EpollEvent)
    (post : list (Z + list unix_EpollEvent)) (l : Locals) (w : World Epoll) :
  locals_ok l →
  ∃ tr, snd (wait_loop h (r :: post) l w)
        = mkWorld (inst w)
            (log w ++ EvEpollWait (ep_fd (inst w)) (length (events l)) (-1) r :: tr).
Proof.
  intros Hok. cbn [wait_loop]. unfold bind.
  destruct (wait_iter_summary h r l w Hok) as (tr & Hw & _ & Hnext).
  destruct (wait_iter h r l w) as [res w1]. cbn [fst snd] in *. subst w1.
  destruct res as [[l1|]|msg|]; try by exists tr.
  destruct Hnext as [Hok1 _].
  destruct (wait_loop_summary h post l1
              (mkWorld (inst w)
                 (log w ++ EvEpollWait (ep_fd (inst w)) (length (events l)) (-1) r :: tr))
              Hok1) as (tr2 & Hw2 & _).
  exists (tr ++ tr2). rewrite Hw2. cbn [inst log]. by rewrite <- app_assoc.
Qed.

(** C7. [wait] with no answer of the kernel is blocked in its first
    [EpollWait].  At any iteration (after any answers that have left the
    loop running), a failure of [EpollWait] that [temporaryErr] accepts
    makes [wait] call [EpollWait] again, with the same buffers, nothing
    else being logged in between: no callback and no error handler; a
    failure that [temporaryErr] rejects makes [wait] invoke the error
    handler with it and return, whatever the kernel would have answered
    next.  Whenever [wait] ends, by a return or by a panic, its deferred
    function has closed the polling handle, has given a failure of that
    close to the error handler ([wait] returns no value), and has closed
    [waitDone], which is all it changes in the instance: the log ends with
    these events and holds no other close of a handle or of the channel.
    As long as [wait] is blocked in [EpollWait] it has closed neither. *)
Theorem wait_error_and_termination (h : Handler) :
  (∀ e script l w,
    temporaryErr (Errno e) = true →
    let tr := [EvEpollWait (ep_fd (inst w)) (length (events l)) (-1) (inl e)] in
    wait_loop h (inl e :: script) l w
      = wait_loop h script l (mkWorld (inst w) (log w ++ tr)) ∧
    calls tr = [] ∧ errors_reported tr = []) ∧
  (∀ e script l w,
    temporaryErr (Errno e) = false →
    wait_loop h (inl e :: script) l w
      = (Ok tt, mkWorld (inst w)
                  (log w ++ [EvEpollWait (ep_fd (inst w)) (length (events l)) (-1) (inl e);
                             EvOnError h (Errno e)]))) ∧
  (∀ script r_close ep,
    ep_waitDone ep = false →
    let res := fst (run (wait h script r_close) ep) in
    let w' := snd (run (wait h script r_close) ep) in
    match res with
    | Blocked =>
        inst w' = ep ∧
        occurrences EvChanClose (log w') = O ∧ closed_handles (log w') = []
    | _ =>
        inst w' = {| ep_fd := ep_fd ep; ep_eventFd := ep_eventFd ep;
                     ep_closed := ep_closed ep; ep_waitDone := true;
                     ep_callbacks := ep_callbacks ep |} ∧
        (∃ tr, log w' = tr ++ cleanup_log h (ep_fd ep) r_close) ∧
        occurrences EvChanClose (log w') = 1%nat ∧
        closed_handles (log w') = [ep_fd ep]
    end) ∧
  (∀ r_close ep,
    ep_waitDone ep = false →
    run (wait h [] r_close) ep = (Blocked, mkWorld ep [EvMake maxWaitEventsBegin])) ∧
  (∀ pre e post r_close ep,
    ep_waitDone ep = false →
    fst (run (wait h pre r_close) ep) = Blocked →
    let before := log (snd (run (wait h pre r_close) ep)) in
    ∃ cap,
      if temporaryErr (Errno e) then
        run (wait h (pre ++ [inl e]) r_close) ep
          = (Blocked,
             mkWorld ep (before ++ [EvEpollWait (ep_fd ep) cap (-1) (inl e)])) ∧
        ∀ r, ∃ tr,
          log (snd (run (wait h (pre ++ inl e :: r :: post) r_close) ep))
          = before ++ EvEpollWait (ep_fd ep) cap (-1) (inl e)
                   :: EvEpollWait (ep_fd ep) cap (-1) r :: tr
      else
        run (wait h (pre ++ inl e :: post) r_close) ep
          = (Ok tt,
             mkWorld {| ep_fd := ep_fd ep; ep_eventFd := ep_eventFd ep;
                        ep_closed := ep_closed ep; ep_waitDone := true;
                        ep_callbacks := ep_callbacks ep |}
               (before ++ [EvEpollWait (ep_fd ep) cap (-1) (inl e);
                           EvOnError h (Errno e)]
                ++ cleanup_log h (ep_fd ep) r_close))).
Proof.
  assert (Hok0 : locals_ok {| events := make_events maxWaitEventsBegin;
                              callbacks := make_callbacks maxWaitEventsBegin |}).
  { unfold locals_ok, make_events, make_callbacks.
    cbn [arr callbacks events]. by rewrite !length_replicate. }
  assert (Hagain : ∀ e script l w,
    temporaryErr (Errno e) = true →
    wait_loop h (inl e :: script) l w
    = wait_loop h script l
        (mkWorld (inst w)
           (log w ++ [EvEpollWait (ep_fd (inst w)) (length (events l)) (-1) (inl e)]))).
  { intros e script l w Htmp.
    cbn [wait_loop]. unfold bind at 1. by rewrite wait_iter_error, Htmp. }
  assert (Hfatal : ∀ e script l w,
    temporaryErr (Errno e) = false →
    wait_loop h (inl e :: script) l w
    = (Ok tt, mkWorld (inst w)
                (log w ++ [EvEpollWait (ep_fd (inst w)) (length (events l)) (-1) (inl e);
                           EvOnError h (Errno e)]))).
  { intros e script l w Htmp.
    cbn [wait_loop]. unfold bind at 1. by rewrite wait_iter_error, Htmp. }
  split_and!.
  - intros e script l w Htmp tr. split; [|done]. by apply Hagain.
  - exact Hfatal.
  - intros script r_close ep Hd res w'.
    destruct (wait_unfold h script r_close ep Hd) as [Hinst Hrun].
    set (l0 := {| events := make_events maxWaitEventsBegin;
                  callbacks := make_callbacks maxWaitEventsBegin |}) in *.
    destruct (wait_loop_summary h script l0
                (mkWorld ep [EvMake maxWaitEventsBegin]) Hok0)
      as (tr & Hw & Hloop & _).
    assert (Hquiet : occurrences EvChanClose ([EvMake maxWaitEventsBegin] ++ tr) = O
                     ∧ closed_handles ([EvMake maxWaitEventsBegin] ++ tr) = []).
    { apply loop_ev_quiet. by apply Forall_cons. }
    destruct Hquiet as [Hq1 Hq2].
    destruct (cleanup_log_once h (ep_fd ep) r_close) as [Hc1 Hc2].
    subst res w'. rewrite Hrun.
    destruct (wait_loop h script l0 _) as [res w1]. cbn [fst snd] in *.
    subst w1. cbn [inst log] in *.
    destruct res as [[]|msg|]; cbn [fst snd inst log].
    + split_and!; [done|by eexists| |].
      * by rewrite occurrences_app, Hq1, Hc1.
      * by rewrite closed_handles_app, Hq2, Hc2.
    + split_and!; [done|by eexists| |].
      * by rewrite occurrences_app, Hq1, Hc1.
      * by rewrite closed_handles_app, Hq2, Hc2.
    + done.
  - intros r_close ep Hd.
    destruct (wait_unfold h [] r_close ep Hd) as [_ Hrun]. by rewrite Hrun.
  - intros pre e post r_close ep Hd Hblocked before.
    set (l0 := {| events := make_events maxWaitEventsBegin;
                  callbacks := make_callbacks maxWaitEventsBegin |}) in *.
    set (w0 := mkWorld ep [EvMake maxWaitEventsBegin]).
    destruct (wait_unfold h pre r_close ep Hd) as [Hinst Hrun]. fold l0 w0 in Hinst, Hrun.
    assert (Hb : fst (wait_loop h pre l0 w0) = Blocked).
    { rewrite Hrun in Hblocked. by destruct (fst (wait_loop h pre l0 w0)). }
    assert (Hbefore : snd (wait_loop h pre l0 w0) = mkWorld ep before).
    { subst before. rewrite Hrun, Hb. cbn [snd].
      destruct (snd (wait_loop h pre l0 w0)); cbn in *; by subst. }
    destruct (wait_loop_blocked_app h pre l0 w0 Hok0 Hb) as (l' & Hok' & Happ).
    exists (length (events l')).
    assert (Hstep : ∀ rest,
      run (wait h (pre ++ rest) r_close) ep
      = match fst (wait_loop h rest l' (mkWorld ep before)) with
        | Blocked => (Blocked, snd (wait_loop h rest l' (mkWorld ep before)))
        | res => (res, mkWorld (set_waitDone true ep)
                         (log (snd (wait_loop h rest l' (mkWorld ep before)))
                          ++ cleanup_log h (ep_fd ep) r_close))
        end).
    { intros rest. destruct (wait_unfold h (pre ++ rest) r_close ep Hd) as [_ Hrun'].
      fold l0 w0 in Hrun'. by rewrite Hrun', Happ, Hbefore. }
    destruct (temporaryErr (Errno e)) eqn:Htmp.
    + split.
      * rewrite Hstep, Hagain by done. done.
      * intros r. rewrite Hstep, Hagain by done. cbn [inst log].
        destruct (wait_loop_first_event h r post l'
                    (mkWorld ep (before ++ [EvEpollWait (ep_fd ep) (length (events l'))
                                              (-1) (inl e)])) Hok')
          as (tr & Hw).
        destruct (wait_loop h (r :: post) l' _) as [res w1].
        cbn [fst snd inst log] in *. subst w1.
        destruct res as [[]|msg|]; cbn [snd log];
          rewrite <- ?app_assoc; cbn [app]; by eexists.
    + rewrite Hstep, Hfatal by done. cbn [fst snd inst log].
      by rewrite <- !app_assoc.
Qed.

(** *** [Close] on an open instance *)

Lemma for_range_closed (l : list (Z * Func)) (w : World Epoll) :
  for_range l (λ '(_, cb),
    match cb with
    | Some cb => call cb _EPOLLCLOSED
    | None => ret tt
    end) w
  = (Ok tt, mkWorld (inst w) (log w ++ call_events (closed_calls l))).
Proof.
  revert w. induction l as [|[fd [cb|]] l IH]; intros w.
  - destruct w. cbn. by rewrite app_nil_r.
  - cbn [for_range]. unfold bind, call, emit. rewrite IH.
    cbn [inst log]. by rewrite <- app_assoc.
  - cbn [for_range]. unfold bind, ret. by rewrite IH.
Qed.

Lemma calls_unlocked_call_events (cs : list (Cb * EpollEvent)) :
  calls_unlocked O (call_events cs) = true.
Proof. induction cs as [|[cb evt] cs IH]; [done|]. by cbn. Qed.

Lemma closed_calls_range (m : gmap Z Func) :
  closed_calls (range_order m) ≡ₚ closed_calls (map_to_list m).
Proof. unfold closed_calls. by rewrite range_order_perm. Qed.

(** [Close] on an open instance, to its end, when the write to the wake
    handle and the close of it succeed and the loop has closed [waitDone]
    while [Close] was waiting. *)
Lemma Close_after_loop (ep : Epoll) (n : Z) (bg : M Epoll unit)
    (w1 : World Epoll) (m : gmap Z Func) :
  ep_closed ep = false →
  bg (mkWorld (set_closed true ep)
        [EvLock; EvSetClosed true; EvWrite (ep_eventFd ep) closeBytes (inr n);
         EvUnlock]) = (Ok tt, w1) →
  ep_waitDone (inst w1) = true →
  ep_callbacks (inst w1) = Some m →
  run (Close (inr n) bg None) ep
    = (Ok None,
       mkWorld (set_callbacks None (inst w1))
         (log w1
          ++ [EvChanRecv; EvClose (ep_eventFd (inst w1)) None;
              EvLock; EvMapNil; EvUnlock]
          ++ call_events (closed_calls (range_order m)))).
Proof.
  intros Hc Hbg Hd Hm.
  unfold Close, run. unfold bind at 1, mu_Lock, emit. cbn [inst log app].
  unfold bind at 1, gets at 1. cbn [inst]. rewrite Hc.
  unfold bind at 1, store_closed, bind at 1, emit at 1, modify at 1.
  cbn [inst log app].
  unfold bind at 1, gets at 1. cbn [inst set_closed ep_eventFd].
  unfold bind at 1, unix_Write, bind at 1, emit at 1, ret at 1.
  cbn [inst log app].
  unfold bind at 1, mu_Unlock, emit at 1. cbn [inst log app].
  unfold bind at 1, waitDone_recv, bind at 1. rewrite Hbg.
  go ltac:(rewrite ?Hd, ?Hm). rewrite for_range_closed.
  cbn [inst log]. by go_log.
Qed.

(** X17. The first [Close] of an open instance when both the write to
    the wake handle and the close of the wake handle succeed, and the loop
    has closed [waitDone] while [Close] was waiting: the table is replaced by
    nil and then, with the lock released, every entry of the table whose
    function is not nil is invoked once with [_EPOLLCLOSED]. *)
Lemma Close_flushes_callbacks (ep : Epoll) (n : Z) (bg : M Epoll unit)
    (w1 : World Epoll) (m : gmap Z Func) :
  ep_closed ep = false →
  bg (mkWorld (set_closed true ep)
        [EvLock; EvSetClosed true; EvWrite (ep_eventFd ep) closeBytes (inr n);
         EvUnlock]) = (Ok tt, w1) →
  ep_waitDone (inst w1) = true →
  ep_callbacks (inst w1) = Some m →
  let tr := [EvChanRecv; EvClose (ep_eventFd (inst w1)) None;
             EvLock; EvMapNil; EvUnlock]
            ++ call_events (closed_calls (range_order m)) in
  run (Close (inr n) bg None) ep
    = (Ok None, mkWorld (set_callbacks None (inst w1)) (log w1 ++ tr)) ∧
  calls tr ≡ₚ closed_calls (map_to_list m) ∧
  calls_unlocked O tr = true.
Proof.
  intros Hc Hbg Hd Hm tr. split_and!.
  - subst tr. by apply Close_after_loop.
  - subst tr. unfold calls. rewrite omap_app. cbn.
    fold (calls (call_events (closed_calls (range_order m)))).
    rewrite calls_call_events. apply closed_calls_range.
  - subst tr. cbn. apply calls_unlocked_call_events.
Qed.

(** *** [EpollCreate] *)

Lemma EpollCreate_create_failure (c : option EpollConfig) (e r0 errno : Z)
    (r_ctl r_close_fd r_close_eventFd : option Z) :
  run (EpollCreate c (inl e) r0 errno r_ctl r_close_fd r_close_eventFd) tt
    = (Ok (None, Some (Errno e)), mkWorld tt [EvEpollCreate1 0 (inl e)]) ∧
  opened [EvEpollCreate1 0 (inl e)] = [].
Proof. done. Qed.

Lemma EpollCreate_ctl_failure (c : option EpollConfig) (fd r0 e : Z)
    (r_close_fd r_close_eventFd : option Z) :
  let tr := [EvEpollCreate1 0 (inr fd); EvEventfd2 r0 0;
             EvEpollCtl fd EPOLL_CTL_ADD (int r0)
               (Some {| Events := EPOLLIN; Fd := int32 (int r0) |}) (Some e);
             EvClose fd r_close_fd; EvClose (int r0) r_close_eventFd] in
  run (EpollCreate c (inr fd) r0 0 (Some e) r_close_fd r_close_eventFd) tt
    = (Ok (None, Some (Errno e)), mkWorld tt tr) ∧
  leaked tr = [].
Proof.
  intros tr. split; [done|].
  unfold leaked, tr. cbn.
  rewrite !decide_False; [done| |]; rewrite !elem_of_cons; tauto.
Qed.

Lemma EpollCreate_eventfd_failure (c : option EpollConfig) (fd r0 errno : Z)
    (r_ctl r_close_fd r_close_eventFd : option Z) :
  errno ≠ 0 →
  let tr := [EvEpollCreate1 0 (inr fd); EvEventfd2 r0 errno] in
  run (EpollCreate c (inr fd) r0 errno r_ctl r_close_fd r_close_eventFd) tt
    = (Ok (None, Some (Errno errno)), mkWorld tt tr) ∧
  leaked tr = [fd].
Proof.
  intros Hne tr. split.
  - unfold EpollCreate, run. go_unfold. cbn.
    by rewrite bool_decide_eq_true_2.
  - unfold leaked, tr. cbn. destruct errno; done.
Qed.

Lemma EpollCreate_ok (c : option EpollConfig) (fd r0 : Z)
    (r_close_fd r_close_eventFd : option Z) :
  run (EpollCreate c (inr fd) r0 0 None r_close_fd r_close_eventFd) tt
    = (Ok (Some {| ep_fd := fd; ep_eventFd := int r0; ep_closed := false;
                   ep_waitDone := false; ep_callbacks := Some ∅ |}, None),
       mkWorld tt
         [EvEpollCreate1 0 (inr fd); EvEventfd2 r0 0;
          EvEpollCtl fd EPOLL_CTL_ADD (int r0)
            (Some {| Events := EPOLLIN; Fd := int32 (int r0) |}) None;
          EvGo (handler_of (withDefaults c))]).
Proof. done. Qed.

End Netpoll.

(** ** Worked runs *)

(** An instance as [EpollCreate] makes it, with two handles registered
    since: 7 with the callback 1, and 9 with a nil function. *)
Definition ep_open : Epoll :=
  {| ep_fd := 3; ep_eventFd := 4; ep_closed := false; ep_waitDone := false;
     ep_callbacks := Some {[ 7 := Some 1%nat; 9 := None ]} |}.

(** The same instance after a [Close]. *)
Definition ep_shut : Epoll :=
  {| ep_fd := 3; ep_eventFd := 4; ep_closed := true; ep_waitDone := true;
     ep_callbacks := None |}.

(** A [temporaryErr] that accepts EINTR (4) and EAGAIN (11). *)
Definition temporary_eintr (err : error) : bool :=
  match err with
  | Errno 4 | Errno 11 => true
  | _ => false
  end.

(** The loop is woken: the batch holds the wake handle alone. *)
Definition woken : list (Z + list unix_EpollEvent) :=
  [inr [{| Events := EPOLLIN; Fd := 4 |}]].

(** The buffers of the first iteration. *)
Definition locals_begin : Locals :=
  {| events := make_events maxWaitEventsBegin;
     callbacks := make_callbacks maxWaitEventsBegin |}.

(** C1. [Close] on an open instance whose table holds the callback 1 for
    the handle 7: the write to the wake handle succeeds, the loop is woken
    and closes [waitDone], and then the close of the wake handle fails with
    EIO (5).  [Close] returns that error at once: the instance is closed
    (every [Add] that follows returns [ErrClosed]) and the loop is over,
    but the table is not replaced and the callback, which is owed one
    invocation with [_EPOLLCLOSED], is not invoked. *)
Theorem Close_eventfd_close_failure_skips_callbacks :
  let bg := wait temporary_eintr defaultOnWaitError woken None in
  let res := run (Close map_to_list (inr 8) bg (Some 5)) ep_open in
  fst res = Ok (Some (Errno 5)) ∧
  ep_closed (inst (snd res)) = true ∧
  ep_waitDone (inst (snd res)) = true ∧
  ep_callbacks (inst (snd res)) = Some {[ 7 := Some 1%nat; 9 := None ]} ∧
  closed_calls (map_to_list ({[ 7 := Some 1%nat; 9 := None ]} : gmap Z Func))
    = [(1%nat, _EPOLLCLOSED)] ∧
  calls (log (snd res)) = [] ∧
  (EvMapNil ∉ log (snd res)) ∧
  (∀ fd events cb r, fst (Add fd events cb r (snd res)) = Ok (Some ErrClosed)).
Proof.
  intros bg res.
  assert (Hres : res = (Ok (Some (Errno 5)),
            mkWorld {| ep_fd := 3; ep_eventFd := 4; ep_closed := true;
                       ep_waitDone := true;
                       ep_callbacks := Some {[ 7 := Some 1%nat; 9 := None ]} |}
              [EvLock; EvSetClosed true; EvWrite 4 closeBytes (inr 8); EvUnlock;
               EvMake maxWaitEventsBegin;
               EvEpollWait 3 maxWaitEventsBegin (-1)
                 (inr [{| Events := EPOLLIN; Fd := 4 |}]);
               EvRLock; EvRUnlock; EvClose 3 None; EvChanClose;
               EvChanRecv; EvClose 4 (Some 5)])) by by vm_compute.
  rewrite Hres. cbn [fst snd inst log ep_closed ep_waitDone ep_callbacks].
  split_and!; try done.
  rewrite !not_elem_of_cons. split_and!; try done. apply not_elem_of_nil.
Qed.

(** C3. [EpollCreate] when [EpollCreate1] has opened the handle 3 and the
    eventfd system call fails with EMFILE (24): the error is returned and
    the handle 3 is left open, no [Close] is made for it. *)
Theorem EpollCreate_eventfd_failure_leaks :
  let tr := [EvEpollCreate1 0 (inr 3); EvEventfd2 (2 ^ 64 - 1) 24] in
  run (EpollCreate None (inr 3) (2 ^ 64 - 1) 24 None None None) tt
    = (Ok (None, Some (Errno 24)), mkWorld tt tr) ∧
  opened tr = [3] ∧
  closed_handles tr = [] ∧
  leaked tr = [3].
Proof.
  intros tr.
  destruct (EpollCreate_eventfd_failure None 3 (2 ^ 64 - 1) 24 None None None)
    as [Hrun Hleak]; [done|].
  split_and!; done.
Qed.

(** *** The theorems at these inputs *)

Lemma Close_closed_is_noop_witness :
  ep_closed ep_shut = true ∧
  run (Close map_to_list (inr 8) (ret tt) None) ep_shut
    = (Ok (Some ErrClosed), mkWorld ep_shut [EvLock; EvUnlock]).
Proof.
  split; [reflexivity|].
  apply (Close_closed_is_noop map_to_list ep_shut (inr 8) (ret tt) None).
  reflexivity.
Defined.

Lemma Del_Mod_not_registered_witness :
  ep_closed ep_open = false ∧
  map_has (ep_callbacks ep_open) 5 = false ∧
  run (Del 5 None) ep_open
    = (Ok (Some ErrNotRegistered), mkWorld ep_open [EvLock; EvUnlock]) ∧
  run (Mod 5 EPOLLOUT None) ep_open
    = (Ok (Some ErrNotRegistered), mkWorld ep_open [EvRLock; EvRUnlock]).
Proof.
  split; [reflexivity|]. split; [reflexivity|].
  destruct (Del_Mod_not_registered ep_open 5 EPOLLOUT None)
    as (HDel & HMod & _); [reflexivity|reflexivity|].
  split; [exact HDel|exact HMod].
Defined.


Lemma Close_write_failure_not_atomic_witness :
  ep_closed ep_open = false ∧
  run (Close map_to_list (inl 9) (ret tt) None) ep_open
    = (Ok (Some (Errno 9)),
       mkWorld (set_closed true ep_open)
         [EvLock; EvSetClosed true; EvWrite 4 closeBytes (inl 9); EvUnlock]).
Proof.
  split; [reflexivity|].
  apply (Close_write_failure_not_atomic map_to_list ep_open 9 (ret tt) None).
  reflexivity.
Defined.

Lemma wait_wake_terminates_witness :
  let ready := [{| Events := EPOLLIN; Fd := 7 |};
                {| Events := EPOLLIN; Fd := 4 |};
                {| Events := EPOLLIN; Fd := 9 |}] in
  let w := mkWorld ep_open [] in
  let tr := [EvEpollWait 3 maxWaitEventsBegin (-1) (inr ready);
             EvRLock; EvRUnlock] in
  locals_ok locals_begin ∧
  (length ready ≤ length (events locals_begin))%nat ∧
  {| Events := EPOLLIN; Fd := 4 |} ∈ ready ∧
  int 4 = ep_eventFd ep_open ∧
  wait_loop temporary_eintr defaultOnWaitError (inr ready :: woken) locals_begin w
    = (Ok tt, mkWorld ep_open tr).
Proof.
  intros ready w tr.
  assert (H1 : locals_ok locals_begin) by reflexivity.
  assert (H2 : (length ready ≤ length (events locals_begin))%nat)
    by (vm_compute; lia).
  assert (H3 : {| Events := EPOLLIN; Fd := 4 |} ∈ ready)
    by (apply list_elem_of_further, list_elem_of_here).
  assert (H4 : int 4 = ep_eventFd ep_open) by reflexivity.
  split; [exact H1|]. split; [exact H2|]. split; [exact H3|]. split; [exact H4|].
  destruct (wait_wake_terminates temporary_eintr defaultOnWaitError ready
              {| Events := EPOLLIN; Fd := 4 |} woken locals_begin w H1 H2 H3 H4)
    as (_ & Hloop & _).
  rewrite Hloop. reflexivity.
Defined.

Lemma wait_dispatch_skips_nil_witness :
  let ready := [{| Events := EPOLLIN; Fd := 9 |};
                {| Events := EPOLLOUT; Fd := 7 |};
                {| Events := EPOLLIN; Fd := 12 |}] in
  let w := mkWorld ep_open [] in
  locals_ok locals_begin ∧
  (length ready ≤ length (events locals_begin))%nat ∧
  (∀ e, e ∈ ready → int (Fd e) ≠ ep_eventFd (inst w)) ∧
  ready_calls (ep_callbacks ep_open) ready = [(1%nat, EPOLLOUT)] ∧
  ∃ l' tr,
    wait_iter temporary_eintr defaultOnWaitError (inr ready) locals_begin w
      = (Ok (Continue l'),
         mkWorld ep_open
           ([EvEpollWait 3 maxWaitEventsBegin (-1) (inr ready); EvRLock; EvRUnlock]
            ++ call_events [(1%nat, EPOLLOUT)] ++ tr)) ∧
    calls tr = [] ∧
    (∀ i, (i < length ready)%nat → arr (callbacks l') !! i = Some None).
Proof.
  intros ready w.
  assert (H1 : locals_ok locals_begin) by reflexivity.
  assert (H2 : (length ready ≤ length (events locals_begin))%nat)
    by (vm_compute; lia).
  assert (H3 : ∀ e, e ∈ ready → int (Fd e) ≠ ep_eventFd (inst w)).
  { intros e He. repeat (apply elem_of_cons in He as [->|He]; [by vm_compute|]).
    by apply elem_of_nil in He. }
  split; [exact H1|]. split; [exact H2|]. split; [exact H3|].
  split; [reflexivity|].
  destruct (wait_dispatch_skips_nil temporary_eintr defaultOnWaitError ready
              locals_begin w H1 H2 H3) as [(l' & tr & Hiter & Hcalls & Hslots) _].
  exists l', tr. split; [exact Hiter|]. split; [exact Hcalls|exact Hslots].
Defined.

(** A batch that fills the first buffer, and a run in which the kernel
    reports it, then fails with EINTR, then with EBADF (9). *)
Definition full_batch : list unix_EpollEvent :=
  replicate maxWaitEventsBegin {| Events := EPOLLIN; Fd := 7 |}.

Definition busy : list (Z + list unix_EpollEvent) :=
  [inr full_batch; inl 4; inl 9].

Lemma wait_buffer_growth_witness :
  let w := mkWorld ep_open [] in
  let cs := wait_calls (log (snd (run
              (wait temporary_eintr defaultOnWaitError busy None) ep_open))) in
  locals_ok locals_begin ∧
  (length full_batch ≤ length (events locals_begin))%nat ∧
  (∀ e, e ∈ full_batch → int (Fd e) ≠ ep_eventFd (inst w)) ∧
  cs !! O = Some (maxWaitEventsBegin, inr full_batch) ∧
  cs !! 1%nat = Some ((maxWaitEventsBegin * 2)%nat, inl 4) ∧
  (∃ l' tr,
    wait_iter temporary_eintr defaultOnWaitError (inr full_batch) locals_begin w
      = (Ok (Continue l'), mkWorld ep_open tr) ∧
    length (events l') = (maxWaitEventsBegin * 2)%nat ∧
    length (arr (callbacks l')) = (maxWaitEventsBegin * 2)%nat) ∧
  (maxWaitEventsBegin ≤ maxWaitEventsBegin * 2)%nat.
Proof.
  intros w cs.
  assert (H1 : locals_ok locals_begin) by reflexivity.
  assert (H2 : (length full_batch ≤ length (events locals_begin))%nat).
  { unfold full_batch, locals_begin, make_events. cbn [events].
    rewrite !length_replicate. lia. }
  assert (H3 : ∀ e, e ∈ full_batch → int (Fd e) ≠ ep_eventFd (inst w)).
  { intros e He. apply elem_of_replicate in He as [-> _]. by vm_compute. }
  assert (H4 : cs !! O = Some (maxWaitEventsBegin, inr full_batch))
    by (vm_compute; reflexivity).
  assert (H5 : cs !! 1%nat = Some ((maxWaitEventsBegin * 2)%nat, inl 4))
    by (vm_compute; reflexivity).
  split; [exact H1|]. split; [exact H2|]. split; [exact H3|].
  split; [exact H4|]. split; [exact H5|].
  destruct (wait_buffer_growth temporary_eintr defaultOnWaitError)
    as [Hiter Hrun].
  split.
  - destruct (Hiter full_batch locals_begin w H1 H2 H3)
      as (l' & tr & Hrun' & Hcap & [(_ & Hlen & _)|(Hno & _)]).
    + exists l', tr. split; [exact Hrun'|].
      assert (Hb : length (events locals_begin) = maxWaitEventsBegin)
        by (unfold locals_begin, make_events; cbn [events];
            apply length_replicate).
      rewrite Hb in Hlen. split; [exact Hlen|]. by rewrite Hcap.
    + exfalso. apply Hno.
      unfold full_batch, locals_begin, make_events. cbn [events].
      rewrite !length_replicate.
      unfold maxWaitEventsBegin, maxWaitEventsStop. lia.
  - destruct (Hrun busy None ep_open) as [_ Hnext].
    exact (proj1 (Hnext O _ _ _ _ H4 H5)).
Defined.

Lemma wait_error_and_termination_witness :
  let w := mkWorld ep_open [] in
  let out := run (wait temporary_eintr defaultOnWaitError busy (Some 5)) ep_open in
  let stalled := run (wait temporary_eintr defaultOnWaitError [inl 4] (Some 5)) ep_open in
  temporary_eintr (Errno 4) = true ∧
  temporary_eintr (Errno 9) = false ∧
  ep_waitDone ep_open = false ∧
  wait_loop temporary_eintr defaultOnWaitError [inl 4; inl 9] locals_begin w
    = wait_loop temporary_eintr defaultOnWaitError [inl 9] locals_begin
        (mkWorld ep_open [EvEpollWait 3 maxWaitEventsBegin (-1) (inl 4)]) ∧
  wait_loop temporary_eintr defaultOnWaitError [inl 9; inl 4] locals_begin w
    = (Ok tt, mkWorld ep_open
                [EvEpollWait 3 maxWaitEventsBegin (-1) (inl 9);
                 EvOnError defaultOnWaitError (Errno 9)]) ∧
  fst out = Ok tt ∧
  inst (snd out) = {| ep_fd := 3; ep_eventFd := 4; ep_closed := false;
                      ep_waitDone := true; ep_callbacks := ep_callbacks ep_open |} ∧
  occurrences EvChanClose (log (snd out)) = 1%nat ∧
  closed_handles (log (snd out)) = [3] ∧
  run (wait temporary_eintr defaultOnWaitError [] (Some 5)) ep_open
    = (Blocked, mkWorld ep_open [EvMake maxWaitEventsBegin]) ∧
  fst stalled = Blocked ∧
  (∃ cap,
    run (wait temporary_eintr defaultOnWaitError ([inl 4] ++ inl 9 :: [inl 4]) (Some 5))
      ep_open
    = (Ok tt,
       mkWorld {| ep_fd := 3; ep_eventFd := 4; ep_closed := false;
                  ep_waitDone := true; ep_callbacks := ep_callbacks ep_open |}
         (log (snd stalled)
          ++ [EvEpollWait 3 cap (-1) (inl 9); EvOnError defaultOnWaitError (Errno 9)]
          ++ cleanup_log defaultOnWaitError 3 (Some 5)))) ∧
  (∃ cap,
    run (wait temporary_eintr defaultOnWaitError ([inl 4] ++ [inl 4]) (Some 5)) ep_open
    = (Blocked,
       mkWorld ep_open (log (snd stalled) ++ [EvEpollWait 3 cap (-1) (inl 4)]))).
Proof.
  intros w out stalled.
  assert (H1 : temporary_eintr (Errno 4) = true) by reflexivity.
  assert (H2 : temporary_eintr (Errno 9) = false) by reflexivity.
  assert (H3 : ep_waitDone ep_open = false) by reflexivity.
  split; [exact H1|]. split; [exact H2|]. split; [exact H3|].
  destruct (wait_error_and_termination temporary_eintr defaultOnWaitError)
    as (Hretry & Hfatal & Hend & Hstart & Hany).
  split; [exact (proj1 (Hretry 4 [inl 9] locals_begin w H1))|].
  split; [exact (Hfatal 9 [inl 4] locals_begin w H2)|].
  pose proof (Hend busy (Some 5) ep_open H3) as Hout. fold out in Hout.
  assert (Hres : fst out = Ok tt) by (vm_compute; reflexivity).
  split; [exact Hres|].
  rewrite Hres in Hout. destruct Hout as (Hinst & _ & Hchan & Hclosed).
  split; [exact Hinst|]. split; [exact Hchan|]. split; [exact Hclosed|].
  split; [exact (Hstart (Some 5) ep_open H3)|].
  assert (Hpre : fst stalled = Blocked) by (vm_compute; reflexivity).
  split; [exact Hpre|].
  split.
  - destruct (Hany [inl 4] 9 [inl 4] (Some 5) ep_open H3 Hpre) as [cap Hcap].
    exists cap. exact Hcap.
  - destruct (Hany [inl 4] 4 [] (Some 5) ep_open H3 Hpre) as [cap Hcap].
    exists cap. exact (proj1 Hcap).
Defined.

(** *** A whole life, and a [Del] before the lookup *)

(** [Close] when every system call succeeds: the loop is woken and closes
    the polling handle and [waitDone], [Close] closes the wake handle, sets
    the table to nil and invokes the one callback of the table. *)
Example Close_flushes_callbacks_run :
  run (Close map_to_list (inr 8)
         (wait temporary_eintr defaultOnWaitError woken None) None) ep_open
    = (Ok None,
       mkWorld ep_shut
         [EvLock; EvSetClosed true; EvWrite 4 closeBytes (inr 8); EvUnlock;
          EvMake maxWaitEventsBegin;
          EvEpollWait 3 maxWaitEventsBegin (-1) (inr [{| Events := EPOLLIN; Fd := 4 |}]);
          EvRLock; EvRUnlock; EvClose 3 None; EvChanClose;
          EvChanRecv; EvClose 4 None; EvLock; EvMapNil; EvUnlock;
          EvCall 1%nat _EPOLLCLOSED]).
Proof. by vm_compute. Qed.

(** A handle that [Del] has removed before the loop looks it up is passed
    over, although the kernel reports it. *)
Example Del_before_lookup :
  let ready := [{| Events := EPOLLIN; Fd := 7 |}] in
  calls (log (snd (run
    (Del 7 None ;;;
     wait_iter temporary_eintr defaultOnWaitError (inr ready) locals_begin)
    ep_open))) = [] ∧
  calls (log (snd (run
    (wait_iter temporary_eintr defaultOnWaitError (inr ready) locals_begin)
    ep_open))) = [(1%nat, EPOLLIN)].
Proof. by vm_compute. Qed.

(** [EpollCreate] with and without a configuration. *)
Example EpollCreate_run :
  run (EpollCreate (Some {| OnWaitError := Some (userHandler 1) |})
         (inr 3) 4 0 None None None) tt
    = (Ok (Some {| ep_fd := 3; ep_eventFd := 4; ep_closed := false;
                   ep_waitDone := false; ep_callbacks := Some ∅ |}, None),
       mkWorld tt
         [EvEpollCreate1 0 (inr 3); EvEventfd2 4 0;
          EvEpollCtl 3 EPOLL_CTL_ADD 4 (Some {| Events := EPOLLIN; Fd := 4 |}) None;
          EvGo (userHandler 1)]) ∧
  handler_of (withDefaults None) = defaultOnWaitError ∧
  handler_of (withDefaults (Some {| OnWaitError := None |})) = defaultOnWaitError.
Proof. by vm_compute. Qed.

(** ** The [String] methods *)

(** The result after the flags of a table have been named in turn. *)
Definition render (tbl : list (Z * string)) (evt : Z) (str : string) : string :=
  fold_left (λ s '(f, nm), name evt f nm s) tbl str.

(** Which flags of a table are set, and the names of a selection. *)
Definition sel_of (tbl : list (Z * string)) (evt : Z) : list bool :=
  (λ '(f, _), negb (Z.land evt f =? 0)) <$> tbl.

Definition pick (tbl : list (Z * string)) (sel : list bool) : list string :=
  omap (λ '(b, (_, nm)), if b : bool then Some nm else None) (zip sel tbl).

(** The bar that separates two names. *)
Definition bar : Ascii.ascii := Ascii.ascii_of_nat 124.

(** No bar in a string, and the pieces of a string between its bars. *)
Fixpoint bar_free (s : string) : bool :=
  match s with
  | EmptyString => true
  | String c s' => negb (Ascii.eqb c bar) && bar_free s'
  end.

Fixpoint split_bar (s : string) : list string :=
  match s with
  | EmptyString => [""]
  | String c s' =>
    if Ascii.eqb c bar then "" :: split_bar s'
    else match split_bar s' with
         | x :: xs => String c x :: xs
         | [] => [String c ""]
         end
  end.

Lemma string_app_assoc (s1 s2 s3 : string) :
  (s1 +:+ s2) +:+ s3 = s1 +:+ (s2 +:+ s3).
Proof.
  induction s1 as [|c s1 IH]; [done|].
  change (String c ((s1 +:+ s2) +:+ s3) = String c (s1 +:+ (s2 +:+ s3))).
  by rewrite IH.
Qed.

Lemma string_app_nonempty (s1 s2 : string) : s2 ≠ "" → s1 +:+ s2 ≠ "".
Proof. by destruct s1, s2. Qed.

Lemma fold_bar_app (ns : list string) (p q : string) :
  fold_left (λ s nm, s +:+ "|" +:+ nm) ns (p +:+ q)
  = p +:+ fold_left (λ s nm, s +:+ "|" +:+ nm) ns q.
Proof.
  revert q. induction ns as [|n ns IH]; intros q; [done|].
  cbn [fold_left]. by rewrite string_app_assoc, IH.
Qed.

Lemma concat_fold_bar (n : string) (ns : list string) :
  String.concat "|" (n :: ns) = fold_left (λ s nm, s +:+ "|" +:+ nm) ns n.
Proof.
  revert n. induction ns as [|n' ns IH]; intros n; [done|].
  change (String.concat "|" (n :: n' :: ns))
    with (n +:+ "|" +:+ String.concat "|" (n' :: ns)).
  rewrite IH. cbn [fold_left]. by rewrite !fold_bar_app.
Qed.

Lemma split_bar_app (a b : string) :
  bar_free a = true → split_bar (a +:+ "|" +:+ b) = a :: split_bar b.
Proof.
  induction a as [|c a IH]; intros Hfree; [done|].
  cbn [bar_free] in Hfree. apply andb_true_iff in Hfree as [Hc Hfree].
  apply negb_true_iff in Hc.
  change (String c a +:+ "|" +:+ b) with (String c (a +:+ "|" +:+ b)).
  cbn [split_bar]. by rewrite Hc, IH.
Qed.

Lemma split_bar_free (a : string) : bar_free a = true → split_bar a = [a].
Proof.
  induction a as [|c a IH]; intros Hfree; [done|].
  cbn [bar_free] in Hfree. apply andb_true_iff in Hfree as [Hc Hfree].
  apply negb_true_iff in Hc. cbn [split_bar]. by rewrite Hc, IH.
Qed.

Lemma split_bar_concat (n : string) (ns : list string) :
  Forall (λ nm, bar_free nm = true) (n :: ns) →
  split_bar (String.concat "|" (n :: ns)) = n :: ns.
Proof.
  revert n. induction ns as [|n' ns IH]; intros n Hfree.
  - apply split_bar_free. by apply Forall_cons in Hfree as [? _].
  - apply Forall_cons in Hfree as [Hn Hfree].
    change (String.concat "|" (n :: n' :: ns))
      with (n +:+ "|" +:+ String.concat "|" (n' :: ns)).
    by rewrite split_bar_app, IH.
Qed.

Lemma concat_bar_nonempty (n : string) (ns : list string) :
  n ≠ "" → String.concat "|" (n :: ns) ≠ "".
Proof.
  intros Hn. destruct ns as [|n' ns]; [done|].
  change (String.concat "|" (n :: n' :: ns))
    with (n +:+ "|" +:+ String.concat "|" (n' :: ns)).
  by destruct n.
Qed.

(** Names without bars, none of them empty, are read back from their
    concatenation. *)
Lemma concat_bar_inj (l1 l2 : list string) :
  Forall (λ nm, bar_free nm = true ∧ nm ≠ "") l1 →
  Forall (λ nm, bar_free nm = true ∧ nm ≠ "") l2 →
  String.concat "|" l1 = String.concat "|" l2 → l1 = l2.
Proof.
  intros H1 H2 Heq.
  assert (Hfree : ∀ l, Forall (λ nm, bar_free nm = true ∧ nm ≠ "") l →
                       Forall (λ nm, bar_free nm = true) l).
  { intros l Hl. eapply Forall_impl; [done|]. by intros ? [? _]. }
  destruct l1 as [|n1 l1], l2 as [|n2 l2]; [done| | |].
  - apply Forall_cons in H2 as [[_ Hn] _].
    by destruct (concat_bar_nonempty n2 l2 Hn).
  - apply Forall_cons in H1 as [[_ Hn] _].
    by destruct (concat_bar_nonempty n1 l1 Hn).
  - rewrite <- (split_bar_concat n1 l1), <- (split_bar_concat n2 l2) by auto.
    by rewrite Heq.
Qed.

Lemma pick_subset (tbl : list (Z * string)) (sel : list bool) (nm : string) :
  nm ∈ pick tbl sel → nm ∈ tbl.*2.
Proof.
  unfold pick. revert sel. induction tbl as [|[f nm'] tbl IH]; intros sel Hin.
  - destruct sel; by apply elem_of_nil in Hin.
  - destruct sel as [|b sel]; [by apply elem_of_nil in Hin|].
    cbn in Hin. rewrite fmap_cons. cbn [snd].
    destruct b.
    + apply elem_of_cons in Hin as [->|Hin]; [apply list_elem_of_here|].
      apply list_elem_of_further. by eapply IH.
    + apply list_elem_of_further. by eapply IH.
Qed.

(** A selection is read back from the names it picks. *)
Lemma pick_inj (tbl : list (Z * string)) :
  NoDup tbl.*2 →
  ∀ sel1 sel2,
  length sel1 = length tbl → length sel2 = length tbl →
  pick tbl sel1 = pick tbl sel2 → sel1 = sel2.
Proof.
  induction tbl as [|[f nm] tbl IH]; intros Hnd sel1 sel2 Hl1 Hl2 Heq.
  - by destruct sel1, sel2.
  - rewrite fmap_cons in Hnd. cbn [snd] in Hnd.
    apply NoDup_cons in Hnd as [Hnm Hnd].
    destruct sel1 as [|b1 sel1], sel2 as [|b2 sel2]; try done.
    cbn [length] in Hl1, Hl2.
    assert (Hp1 := pick_subset tbl sel1 nm).
    assert (Hp2 := pick_subset tbl sel2 nm).
    unfold pick in *. cbn [zip zip_with omap list_omap] in Heq.
    destruct b1, b2; cbn in Heq.
    + injection Heq as Heq. f_equal. apply IH; [done|lia|lia|done].
    + destruct Hnm. apply Hp2. rewrite <- Heq. apply list_elem_of_here.
    + destruct Hnm. apply Hp1. rewrite Heq. apply list_elem_of_here.
    + f_equal. apply IH; [done|lia|lia|done].
Qed.

Lemma pick_Forall (P : string → Prop) (tbl : list (Z * string)) (sel : list bool) :
  Forall (λ p, P p.2) tbl → Forall P (pick tbl sel).
Proof.
  intros Htbl. apply Forall_forall. intros nm Hin.
  apply pick_subset in Hin. apply list_elem_of_fmap in Hin as ([f nm'] & -> & Hin).
  by apply (proj1 (Forall_forall _ _) Htbl _ Hin).
Qed.

Lemma land_pow2 (a k : Z) :
  0 ≤ k → Z.land a (2 ^ k) = if Z.testbit a k then 2 ^ k else 0.
Proof.
  intros Hk. apply Z.bits_inj'. intros n Hn.
  rewrite Z.land_spec, Z.pow2_bits_eqb by done.
  destruct (Z.eqb_spec k n) as [->|Hne].
  - destruct (Z.testbit a n); [|by rewrite Z.bits_0].
    by rewrite Z.pow2_bits_eqb, Z.eqb_refl.
  - rewrite andb_false_r. destruct (Z.testbit a k); [|by rewrite Z.bits_0].
    rewrite Z.pow2_bits_eqb by done. symmetry. by apply Z.eqb_neq.
Qed.

Lemma name_unset (evt f : Z) (nm str : string) :
  Z.land evt f = 0 → name evt f nm str = str.
Proof. intros H0. unfold name. by rewrite H0. Qed.

Lemma name_first (evt f : Z) (nm : string) :
  Z.land evt f ≠ 0 → name evt f nm "" = nm.
Proof.
  intros H0. unfold name. by destruct (Z.eqb_spec (Z.land evt f) 0).
Qed.

Lemma name_next (evt f : Z) (nm str : string) :
  Z.land evt f ≠ 0 → str ≠ "" → name evt f nm str = str +:+ "|" +:+ nm.
Proof.
  intros H0 Hstr. unfold name. destruct (Z.eqb_spec (Z.land evt f) 0); [done|].
  rewrite decide_True by done. apply string_app_assoc.
Qed.

Lemma render_started (tbl : list (Z * string)) (evt : Z) :
  Forall (λ p, p.2 ≠ "") tbl →
  ∀ str, str ≠ "" →
  render tbl evt str
  = fold_left (λ s nm, s +:+ "|" +:+ nm) (names_set tbl evt) str.
Proof.
  unfold render, names_set.
  induction 1 as [|[f nm] tbl' Hnm _ IH]; intros str Hstr; [done|].
  cbn [fold_left]. rewrite filter_cons.
  destruct (decide (Z.land evt f = 0)) as [H0|H0].
  - rewrite name_unset, decide_False by (done || by intros []). by apply IH.
  - rewrite name_next, (decide_True (P := Z.land evt f ≠ 0)) by done.
    cbn [fmap list_fmap snd fold_left]. apply IH.
    by apply string_app_nonempty, string_app_nonempty.
Qed.

Lemma render_join (tbl : list (Z * string)) (evt : Z) :
  Forall (λ p, p.2 ≠ "") tbl →
  render tbl evt "" = String.concat "|" (names_set tbl evt).
Proof.
  induction 1 as [|[f nm] tbl' Hnm Hall IH]; [done|].
  unfold render, names_set in *. cbn [fold_left]. rewrite filter_cons.
  destruct (decide (Z.land evt f = 0)) as [H0|H0].
  - rewrite name_unset, decide_False by (done || by intros []). apply IH.
  - rewrite name_first, (decide_True (P := Z.land evt f ≠ 0)) by done.
    cbn [fmap list_fmap snd]. rewrite concat_fold_bar.
    by apply (render_started tbl' evt Hall).
Qed.

Lemma names_set_pick (tbl : list (Z * string)) (evt : Z) :
  names_set tbl evt = pick tbl (sel_of tbl evt).
Proof.
  unfold names_set, pick, sel_of.
  induction tbl as [|[f nm] tbl' IH]; [done|].
  rewrite filter_cons, fmap_cons. cbn [zip zip_with omap list_omap].
  destruct (Z.eqb_spec (Z.land evt f) 0) as [H0|H0]; cbn [negb].
  - by rewrite decide_False by (by intros []).
  - rewrite decide_True by done. cbn. by rewrite IH.
Qed.

Lemma land_mask_of (tbl : list (Z * string)) (a : Z) :
  Z.land a (mask_of tbl)
  = foldr (λ '(f, _) acc, Z.lor (Z.land a f) acc) 0 tbl.
Proof.
  unfold mask_of. induction tbl as [|[f nm] tbl' IH].
  - apply Z.land_0_r.
  - cbn [foldr]. by rewrite Z.land_lor_distr_r, IH.
Qed.

Lemma mask_of_covers (tbl : list (Z * string)) (f : Z) (nm : string) :
  (f, nm) ∈ tbl → Z.land (mask_of tbl) f = f.
Proof.
  intros Hin. apply Z.bits_inj'. intros n Hn. rewrite Z.land_spec.
  destruct (Z.testbit f n) eqn:Hf; [|apply andb_false_r].
  rewrite andb_true_r. unfold mask_of.
  induction tbl as [|[f' nm'] tbl' IH]; [by apply elem_of_nil in Hin|].
  cbn [foldr]. rewrite Z.lor_spec.
  apply elem_of_cons in Hin as [[= <- <-]|Hin].
  - by rewrite Hf.
  - rewrite IH by done. apply orb_true_r.
Qed.

Lemma sel_of_eq_iff (tbl : list (Z * string)) (a b : Z) :
  Forall (λ p, 0 < p.1 ∧ p.1 = 2 ^ Z.log2 p.1) tbl →
  sel_of tbl a = sel_of tbl b
  ↔ Z.land a (mask_of tbl) = Z.land b (mask_of tbl).
Proof.
  intros Hpow. split.
  - intros Hsel. rewrite !land_mask_of. unfold sel_of in Hsel.
    induction Hpow as [|[f nm] tbl' [Hpos Hf] _ IH]; [done|].
    rewrite !fmap_cons in Hsel. injection Hsel as Hhd Htl.
    cbn [foldr]. rewrite IH by done. f_equal.
    cbn [fst] in Hpos, Hf.
    assert (Hk : 0 ≤ Z.log2 f) by apply Z.log2_nonneg.
    pose proof (land_pow2 a _ Hk) as Ha. pose proof (land_pow2 b _ Hk) as Hb.
    rewrite <- Hf in Ha, Hb. rewrite Ha, Hb in Hhd |- *.
    destruct (Z.testbit a _), (Z.testbit b _); try done.
    + exfalso. revert Hhd. cbn. destruct (Z.eqb_spec f 0); [lia|done].
    + exfalso. revert Hhd. cbn. destruct (Z.eqb_spec f 0); [lia|done].
  - intros Hmask. unfold sel_of. apply list_fmap_ext.
    intros i [f nm] Hi. apply list_elem_of_lookup_2 in Hi.
    rewrite <- (mask_of_covers tbl f nm Hi).
    by rewrite !Z.land_assoc, Hmask.
Qed.

(** For a table of single bits with names that are not empty: the result
    is the names of the flags that are set, with bars between them; two
    masks have the same result exactly when they have the same known
    flags. *)
Lemma render_spec (tbl : list (Z * string)) (a b : Z) :
  Forall (λ p, bar_free p.2 = true ∧ p.2 ≠ "") tbl →
  Forall (λ p, 0 < p.1 ∧ p.1 = 2 ^ Z.log2 p.1) tbl →
  NoDup tbl.*2 →
  render tbl a "" = String.concat "|" (names_set tbl a) ∧
  (render tbl a "" = render tbl b ""
   ↔ Z.land a (mask_of tbl) = Z.land b (mask_of tbl)) ∧
  (render tbl a "" = "" ↔ Z.land a (mask_of tbl) = 0).
Proof.
  intros Hnames' Hpow Hapart.
  assert (Hnames : Forall (λ p, p.2 ≠ "") tbl).
  { eapply Forall_impl; [exact Hnames'|]. by intros ? [_ ?]. }
  assert (Hiff : ∀ x y, render tbl x "" = render tbl y ""
                 ↔ Z.land x (mask_of tbl) = Z.land y (mask_of tbl)).
  { intros x y. rewrite <- sel_of_eq_iff, !render_join, !names_set_pick by done.
    split.
    - intros Heq.
      apply (pick_inj tbl Hapart); [apply length_fmap|apply length_fmap|].
      apply concat_bar_inj; [by apply pick_Forall|by apply pick_Forall|done].
    - by intros ->. }
  split_and!; [by apply render_join|apply Hiff|].
  rewrite <- (Z.land_0_l (mask_of tbl)), <- Hiff.
  assert (H0 : render tbl 0 "" = "").
  { rewrite render_join by done. unfold names_set.
    replace (filter _ tbl) with (@nil (Z * string)); [done|].
    clear. induction tbl as [|[f nm] tbl' IH]; [done|].
    rewrite filter_cons, decide_False; [exact IH|].
    cbn. rewrite Z.land_0_l. by intros []. }
  by rewrite H0.
Qed.

Lemma EpollEvent_names_ok :
  Forall (λ p, bar_free p.2 = true ∧ p.2 ≠ "") EpollEvent_names ∧
  Forall (λ p, 0 < p.1 ∧ p.1 = 2 ^ Z.log2 p.1) EpollEvent_names ∧
  NoDup EpollEvent_names.*2.
Proof.
  split_and!.
  - repeat (constructor; [by split|]). constructor.
  - repeat (constructor; [by split|]). constructor.
  - apply (bool_decide_unpack _). by vm_compute.
Qed.

Lemma Event_names_ok :
  Forall (λ p, bar_free p.2 = true ∧ p.2 ≠ "") Event_names ∧
  Forall (λ p, 0 < p.1 ∧ p.1 = 2 ^ Z.log2 p.1) Event_names ∧
  NoDup Event_names.*2.
Proof.
  split_and!.
  - repeat (constructor; [by split|]). constructor.
  - repeat (constructor; [by split|]). constructor.
  - apply (bool_decide_unpack _). by vm_compute.
Qed.

(** X1. [EpollEvent.String] gives the names of the flags that are set in
    the mask, in the order EPOLLIN, EPOLLOUT, EPOLLRDHUP, EPOLLPRI,
    EPOLLERR, EPOLLHUP, EPOLLET, EPOLLONESHOT, _EPOLLCLOSED, with a bar
    between two names and none at either end. *)
Theorem EpollEvent_String_names (evt : EpollEvent) :
  EpollEvent_String evt = String.concat "|" (names_set EpollEvent_names evt).
Proof.
  destruct EpollEvent_names_ok as (H1 & H2 & H3).
  exact (proj1 (render_spec EpollEvent_names evt evt H1 H2 H3)).
Qed.

(** X2. [EpollEvent.String] tells two masks apart exactly when they differ
    in one of the nine flags it knows (the bits 0xC000203F): the other bits
    are not shown, and the result is empty exactly when none of the nine is
    set. *)
Theorem EpollEvent_String_known_bits (a b : EpollEvent) :
  (EpollEvent_String a = EpollEvent_String b
   ↔ Z.land a 0xC000203F = Z.land b 0xC000203F) ∧
  (EpollEvent_String a = "" ↔ Z.land a 0xC000203F = 0).
Proof.
  destruct EpollEvent_names_ok as (H1 & H2 & H3).
  exact (proj2 (render_spec EpollEvent_names a b H1 H2 H3)).
Qed.

(** X3. [Event.String] gives the names of the flags that are set in the
    mask, in the order EventRead, EventWrite, EventOneShot,
    EventEdgeTriggered, EventReadHup, EventWriteHup, EventHup, EventErr,
    EventPollerClosed, with a bar between two names and none at either
    end. *)
Theorem Event_String_names (ev : Event) :
  Event_String ev = String.concat "|" (names_set Event_names ev).
Proof.
  destruct Event_names_ok as (H1 & H2 & H3).
  exact (proj1 (render_spec Event_names ev ev H1 H2 H3)).
Qed.

(** X4. [Event.String] tells two masks apart exactly when they differ in
    one of the nine flags it knows (the bits 0x80FF), and the result is
    empty exactly when none of the nine is set. *)
Theorem Event_String_known_bits (a b : Event) :
  (Event_String a = Event_String b ↔ Z.land a 0x80FF = Z.land b 0x80FF) ∧
  (Event_String a = "" ↔ Z.land a 0x80FF = 0).
Proof.
  destruct Event_names_ok as (H1 & H2 & H3).
  exact (proj2 (render_spec Event_names a b H1 H2 H3)).
Qed.

(** ** Registration *)

(** The lock as one goroutine holds it. *)
Inductive Held := Free | Writing | Reading.

(** The lock after a log, when the log takes and releases it in order,
    and invokes callbacks and blocks (in [EpollWait], on [waitDone]) only
    while it does not hold it; [None] otherwise. *)
Fixpoint lock_run (held : Held) (tr : list Ev) : option Held :=
  match tr with
  | [] => Some held
  | EvLock :: tr' => if held is Free then lock_run Writing tr' else None
  | EvRLock :: tr' => if held is Free then lock_run Reading tr' else None
  | EvUnlock :: tr' => if held is Writing then lock_run Free tr' else None
  | EvRUnlock :: tr' => if held is Reading then lock_run Free tr' else None
  | EvCall _ _ :: tr' => if held is Free then lock_run Free tr' else None
  | EvEpollWait _ _ _ _ :: tr' => if held is Free then lock_run Free tr' else None
  | EvChanRecv :: tr' => if held is Free then lock_run Free tr' else None
  | _ :: tr' => lock_run held tr'
  end.

Definition is_close (c : Call) : bool :=
  match c with
  | CallClose _ _ _ => true
  | _ => false
  end.

(** What a call says of the registration of [fd]: an [Add] of it that it
    is registered, a [Del] of it that it is not. *)
Definition touches (fd : Z) (c : Call) : option bool :=
  match c with
  | CallAdd fd' _ _ _ => if decide (fd' = fd) then Some true else None
  | CallDel fd' _ => if decide (fd' = fd) then Some false else None
  | _ => None
  end.

(** Whether [fd] is registered after the calls: what the last [Add] or
    [Del] of it says, and what held before when there is none. *)
Definition registered_after (fd : Z) (cs : list Call) (before : bool) : bool :=
  foldl (λ b c, default b (touches fd c)) before cs.

(** The table after a call on an open instance. *)
Definition reg_step (c : Call) (m : gmap Z Func) : gmap Z Func :=
  match c with
  | CallAdd fd _ cb _ => if m !! fd is Some _ then m else <[fd := cb]> m
  | CallDel fd _ => delete fd m
  | _ => m
  end.

Ltac run_unfold :=
  cbv [Add Del Mod Close exec run bind ret gets emit modify defer panic block
       mu_Lock mu_Unlock mu_RLock mu_RUnlock map_store map_delete
       store_closed store_callbacks_nil waitDone_recv waitDone_close
       unix_EpollCreate1 unix_Eventfd2 unix_EpollCtl unix_EpollWait
       unix_Write unix_Close call onError_call].

Ltac run_go tac := run_unfold; repeat first [progress cbn | progress tac].

Lemma exec_reg_step (range_order : gmap Z Func → list (Z * Func)) (c : Call)
    (ep : Epoll) (m : gmap Z Func) (tr : list Ev) :
  ep_closed ep = false →
  ep_callbacks ep = Some m →
  is_close c = false →
  ∃ err tr',
    exec range_order c (mkWorld ep tr)
      = (Ok err, mkWorld (set_callbacks (Some (reg_step c m)) ep) (tr ++ tr')) ∧
    calls tr' = [] ∧
    lock_run Free tr' = Some Free.
Proof.
  intros Hc Hm Hclose.
  assert (Hep : set_callbacks (Some m) ep = ep)
    by (destruct ep; cbn in *; by subst).
  destruct c as [fd events cb r|fd r|fd events r|]; [| | |done]; cbn [reg_step].
  - destruct (m !! fd) as [cb0|] eqn:Hfd.
    + exists (Some ErrRegistered), [EvLock; EvUnlock].
      run_go ltac:(rewrite ?Hc, ?Hm, ?Hfd). by rewrite Hep, <- app_assoc.
    + eexists (as_error r), _.
      run_go ltac:(rewrite ?Hc, ?Hm, ?Hfd). rewrite <- !app_assoc.
      split; [reflexivity|done].
  - destruct (m !! fd) as [cb0|] eqn:Hfd.
    + eexists (as_error r), _.
      run_go ltac:(rewrite ?Hc, ?Hm, ?Hfd). rewrite <- !app_assoc.
      split; [reflexivity|done].
    + exists (Some ErrNotRegistered), [EvLock; EvUnlock].
      run_go ltac:(rewrite ?Hc, ?Hm, ?Hfd).
      rewrite delete_id by done. by rewrite Hep, <- app_assoc.
  - destruct (m !! fd) as [cb0|] eqn:Hfd.
    + eexists (as_error r), _.
      run_go ltac:(rewrite ?Hc, ?Hm, ?Hfd). rewrite Hep, <- !app_assoc.
      split; [reflexivity|done].
    + exists (Some ErrNotRegistered), [EvRLock; EvRUnlock].
      run_go ltac:(rewrite ?Hc, ?Hm, ?Hfd). by rewrite Hep, <- app_assoc.
Qed.

Lemma lock_run_app (tr1 tr2 : list Ev) (held : Held) :
  lock_run held (tr1 ++ tr2) = lock_run held tr1 ≫= λ held', lock_run held' tr2.
Proof.
  revert held. induction tr1 as [|e tr1 IH]; intros held; [done|].
  destruct e, held; cbn; try done; apply IH.
Qed.

Lemma calls_app (tr1 tr2 : list Ev) : calls (tr1 ++ tr2) = calls tr1 ++ calls tr2.
Proof. apply omap_app. Qed.

Lemma set_callbacks_twice (t t' : option (gmap Z Func)) (ep : Epoll) :
  set_callbacks t' (set_callbacks t ep) = set_callbacks t' ep.
Proof. done. Qed.

Lemma reg_step_has (c : Call) (m : gmap Z Func) (fd : Z) :
  map_has (Some (reg_step c m)) fd = default (map_has (Some m) fd) (touches fd c).
Proof.
  destruct c as [fd' events cb r|fd' r| |]; cbn [reg_step touches map_has default];
    try done.
  - destruct (decide (fd' = fd)) as [->|Hne]; cbn [default].
    + destruct (m !! fd) eqn:Hfd.
      * rewrite Hfd. by apply bool_decide_eq_true_2.
      * rewrite lookup_insert_eq. by apply bool_decide_eq_true_2.
    + destruct (m !! fd'); [done|]. by rewrite lookup_insert_ne.
  - destruct (decide (fd' = fd)) as [->|Hne]; cbn [default].
    + rewrite lookup_delete_eq. apply bool_decide_eq_false_2. by intros [? ?].
    + by rewrite lookup_delete_ne.
Qed.

Lemma exec_all_reg (range_order : gmap Z Func → list (Z * Func)) (cs : list Call) :
  ∀ (ep : Epoll) (m : gmap Z Func) (tr : list Ev),
  ep_closed ep = false →
  ep_callbacks ep = Some m →
  Forall (λ c, is_close c = false) cs →
  ∃ errs tr',
    exec_all range_order cs (mkWorld ep tr)
      = (Ok errs,
         mkWorld (set_callbacks (Some (foldl (λ m c, reg_step c m) m cs)) ep)
           (tr ++ tr')) ∧
    length errs = length cs ∧
    calls tr' = [] ∧
    lock_run Free tr' = Some Free.
Proof.
  induction cs as [|c cs IH]; intros ep m tr Hc Hm Hcs.
  - exists [], []. cbn. rewrite app_nil_r. split_and!; try done.
    unfold ret. do 2 f_equal. destruct ep; cbn in *; by subst.
  - apply Forall_cons in Hcs as [Hclose Hcs].
    destruct (exec_reg_step range_order c ep m tr Hc Hm Hclose)
      as (err & tr1 & Hexec & Hcalls1 & Hlock1).
    destruct (IH (set_callbacks (Some (reg_step c m)) ep) (reg_step c m)
                (tr ++ tr1)) as (errs & tr2 & Hall & Hlen & Hcalls2 & Hlock2);
      [done|done|done|].
    exists (err :: errs), (tr1 ++ tr2).
    cbn [exec_all foldl]. unfold bind at 1. rewrite Hexec.
    unfold bind at 1. rewrite Hall. unfold ret.
    rewrite set_callbacks_twice, <- app_assoc. split_and!.
    + done.
    + cbn. by rewrite Hlen.
    + by rewrite calls_app, Hcalls1, Hcalls2.
    + by rewrite lock_run_app, Hlock1.
Qed.

(** X5. On an open instance, after any number of calls of [Add], [Del] and
    [Mod], whatever the kernel has answered to each: all the calls have
    returned, the instance is open and has its handles, a handle is in the
    table exactly when the last [Add] or [Del] of it was an [Add] (or, when
    there was none, when it was there before), no callback has been
    invoked, and the lock is free. *)
Theorem registration_replay (range_order : gmap Z Func → list (Z * Func))
    (cs : list Call) (ep : Epoll) (m : gmap Z Func) :
  ep_closed ep = false →
  ep_callbacks ep = Some m →
  Forall (λ c, is_close c = false) cs →
  ∃ errs m' tr,
    run (exec_all range_order cs) ep
      = (Ok errs, mkWorld (set_callbacks (Some m') ep) tr) ∧
    length errs = length cs ∧
    (∀ fd, map_has (Some m') fd = registered_after fd cs (map_has (Some m) fd)) ∧
    calls tr = [] ∧
    lock_run Free tr = Some Free.
Proof.
  intros Hc Hm Hcs.
  destruct (exec_all_reg range_order cs ep m [] Hc Hm Hcs)
    as (errs & tr & Hall & Hlen & Hcalls & Hlock).
  exists errs, (foldl (λ m c, reg_step c m) m cs), tr.
  split_and!; try done.
  intros fd. unfold registered_after. clear.
  revert m. induction cs as [|c cs IH]; intros m; [done|].
  cbn [foldl]. by rewrite IH, reg_step_has.
Qed.

(** X6. [Del] of a registered handle on an open instance removes the
    entry and then makes the [EPOLL_CTL_DEL] call, whose result it returns;
    the entry is gone also when that call fails: a [Del] of the handle
    that follows returns [ErrNotRegistered], and an [Add] of it registers
    it anew. *)
Theorem Del_removes_entry_first (ep : Epoll) (m : gmap Z Func) (fd : Z)
    (cb0 : Func) (r : option Z) :
  ep_closed ep = false →
  ep_callbacks ep = Some m →
  m !! fd = Some cb0 →
  let ep' := set_callbacks (Some (delete fd m)) ep in
  run (Del fd r) ep
    = (Ok (as_error r),
       mkWorld ep'
         [EvLock; EvMapDelete fd;
          EvEpollCtl (ep_fd ep) EPOLL_CTL_DEL fd None r; EvUnlock]) ∧
  (∀ r', run (Del fd r') ep'
           = (Ok (Some ErrNotRegistered), mkWorld ep' [EvLock; EvUnlock])) ∧
  (∀ events cb,
    run (Add fd events cb None) ep'
      = (Ok None,
         mkWorld (set_callbacks (Some (<[fd := cb]> m)) ep)
           [EvLock; EvMapStore fd cb;
            EvEpollCtl (ep_fd ep) EPOLL_CTL_ADD fd
              (Some {| Events := uint32 events; Fd := int32 fd |}) None;
            EvUnlock])).
Proof.
  intros Hc Hm Hfd ep'. split_and!.
  - by run_go ltac:(rewrite ?Hc, ?Hm, ?Hfd).
  - intros r'. subst ep'. by run_go ltac:(rewrite ?Hc, ?lookup_delete_eq).
  - intros events cb. subst ep'.
    run_go ltac:(rewrite ?Hc, ?lookup_delete_eq).
    by rewrite insert_delete_eq.
Qed.

(** X7. On an open instance whose table does not hold [fd], an [Add] of
    [fd] and then a [Del] of it leave the instance as it was, whatever the
    kernel answers to the two [EpollCtl] calls; the [Del] returns the
    result of its own call. *)
Theorem Add_Del_round_trip (ep : Epoll) (m : gmap Z Func) (fd : Z)
    (events : EpollEvent) (cb : Func) (r_add r_del : option Z) :
  ep_closed ep = false →
  ep_callbacks ep = Some m →
  m !! fd = None →
  run (Add fd events cb r_add ;;; Del fd r_del) ep
    = (Ok (as_error r_del),
       mkWorld ep
         [EvLock; EvMapStore fd cb;
          EvEpollCtl (ep_fd ep) EPOLL_CTL_ADD fd
            (Some {| Events := uint32 events; Fd := int32 fd |}) r_add;
          EvUnlock;
          EvLock; EvMapDelete fd;
          EvEpollCtl (ep_fd ep) EPOLL_CTL_DEL fd None r_del; EvUnlock]).
Proof.
  intros Hc Hm Hfd.
  run_go ltac:(rewrite ?Hc, ?Hm, ?Hfd, ?lookup_insert_eq).
  rewrite delete_insert_eq, delete_id by done.
  do 2 f_equal. destruct ep; cbn in *; by subst.
Qed.

(** X8. On a closed instance every call, [Add], [Del], [Mod] or [Close],
    of a handle that is registered or not, returns [ErrClosed]: any number
    of calls leaves the instance as it is, makes no system call and invokes
    no callback. *)
Theorem closed_instance_is_inert (range_order : gmap Z Func → list (Z * Func))
    (cs : list Call) (ep : Epoll) :
  ep_closed ep = true →
  ∃ tr,
    run (exec_all range_order cs) ep
      = (Ok (replicate (length cs) (Some ErrClosed)), mkWorld ep tr) ∧
    syscalls tr = [] ∧
    calls tr = [].
Proof.
  intros Hc. eexists. split.
  - by apply (exec_all_closed range_order cs (mkWorld ep [])).
  - cbn [log app]. split; apply closed_log_no_calls.
Qed.

(** X9. On an instance that is open with a nil table (the zero value of
    [Epoll]), [Add] panics on the assignment to the map, after the checks
    and before any system call, and its deferred [Unlock] has released the
    lock; [Del] and [Mod] return [ErrNotRegistered]. *)
Theorem nil_table_Add_panics (ep : Epoll) (fd : Z) (events : EpollEvent)
    (cb : Func) (r : option Z) :
  ep_closed ep = false →
  ep_callbacks ep = None →
  run (Add fd events cb r) ep
    = (Panic "assignment to entry in nil map", mkWorld ep [EvLock; EvUnlock]) ∧
  run (Del fd r) ep
    = (Ok (Some ErrNotRegistered), mkWorld ep [EvLock; EvUnlock]) ∧
  run (Mod fd events r) ep
    = (Ok (Some ErrNotRegistered), mkWorld ep [EvRLock; EvRUnlock]).
Proof.
  intros Hc Hm. split_and!; by run_go ltac:(rewrite ?Hc, ?Hm).
Qed.

(** ** The wait loop over a whole run *)

(** The capacities the batch buffers can have. *)
Definition capacities : list Z := [1024; 2048; 4096; 8192; 16384; 32768].

(** A call of [EpollWait] is made on the polling handle, without a
    timeout, with a buffer of one of the capacities. *)
Definition wait_ev_ok (fd : Z) (e : Ev) : Prop :=
  match e with
  | EvEpollWait epfd n msec _ => epfd = fd ∧ msec = -1 ∧ Z.of_nat n ∈ capacities
  | _ => True
  end.

(** The batches of ready entries among the answers of the kernel. *)
Definition batches (script : list (Z + list unix_EpollEvent))
    : list (list unix_EpollEvent) :=
  omap (λ r, match r with inr ready => Some ready | inl _ => None end) script.

Lemma lock_run_call_events (cs : list (Cb * EpollEvent)) :
  lock_run Free (call_events cs) = Some Free.
Proof. induction cs as [|[cb evt] cs IH]; [done|]. by cbn. Qed.

Lemma errors_reported_call_events (cs : list (Cb * EpollEvent)) :
  errors_reported (call_events cs) = [].
Proof.
  unfold errors_reported. induction cs as [|[cb evt] cs IH]; [done|]. by cbn.
Qed.

Lemma errors_reported_app (tr1 tr2 : list Ev) :
  errors_reported (tr1 ++ tr2) = errors_reported tr1 ++ errors_reported tr2.
Proof. apply omap_app. Qed.

Lemma wait_ev_ok_call_events (fd : Z) (cs : list (Cb * EpollEvent)) :
  Forall (wait_ev_ok fd) (call_events cs).
Proof.
  unfold call_events. apply Forall_fmap, Forall_forall. by intros [cb evt] _.
Qed.

Lemma next_cap_capacities (r : Z + list unix_EpollEvent) (cap : nat) :
  Z.of_nat cap ∈ capacities → Z.of_nat (next_cap r cap) ∈ capacities.
Proof.
  intros Hcap. destruct r as [e|ready]; [done|]. cbn [next_cap].
  unfold grows, maxWaitEventsStop.
  case_bool_decide as Heq; cbn [andb]; [|done].
  case_bool_decide as Hmax; [|done].
  unfold capacities in *. rewrite !elem_of_cons, elem_of_nil in Hcap |- *. lia.
Qed.

Section Loop.

Variable temporaryErr : error → bool.

(** What one iteration logs after its call of [EpollWait], whatever the
    kernel has answered. *)
Lemma wait_iter_shape (h : Handler) (r : Z + list unix_EpollEvent)
    (l : Locals) (w : World Epoll) :
  locals_ok l →
  ∃ tr,
    snd (wait_iter temporaryErr h r l w)
      = mkWorld (inst w)
          (log w ++ EvEpollWait (ep_fd (inst w)) (length (events l)) (-1) r :: tr) ∧
    lock_run Free tr = Some Free ∧
    Forall (wait_ev_ok (ep_fd (inst w))) tr ∧
    (errors_reported tr = []
     ∨ ∃ e, r = inl e ∧ temporaryErr (Errno e) = false ∧
            errors_reported tr = [(h, Errno e)] ∧
            fst (wait_iter temporaryErr h r l w) = Ok Return) ∧
    match fst (wait_iter temporaryErr h r l w) with
    | Ok (Continue l') =>
        locals_ok l' ∧ length (events l') = next_cap r (length (events l))
    | _ => True
    end.
Proof.
  intros Hok.
  destruct (wait_iter_summary temporaryErr h r l w Hok) as (tr0 & Hw0 & _ & Hnext).
  destruct r as [e|ready].
  - rewrite wait_iter_error in *. destruct (temporaryErr (Errno e)) eqn:Htmp;
      cbn [fst snd] in *.
    + exists []. split_and!; try done. by left.
    + exists [EvOnError h (Errno e)]. split_and!; try done.
      * by repeat constructor.
      * right. by exists e.
  - destruct (decide (length ready ≤ length (events l))%nat) as [Hn|Hn].
    + destruct (has_wake (ep_eventFd (inst w)) ready) eqn:Hwake.
      * rewrite wait_iter_wake in * by done. cbn [fst snd] in *.
        exists [EvRLock; EvRUnlock]. split_and!; try done.
        -- by repeat constructor.
        -- by left.
      * rewrite wait_iter_ready in * by done. cbn [fst snd] in *.
        eexists. split; [reflexivity|].
        split; [|split; [|split; [|exact Hnext]]].
        -- cbn [app lock_run]. rewrite lock_run_app, lock_run_call_events.
           cbn. by destruct (grows _ _).
        -- repeat (apply Forall_cons; split; [done|]).
           apply Forall_app. split; [apply wait_ev_ok_call_events|].
           destruct (grows _ _); by repeat constructor.
        -- left. cbn [app]. unfold errors_reported at 1. cbn.
           fold (errors_reported (call_events (ready_calls (ep_callbacks (inst w)) ready)
                                  ++ (if grows (length ready) (length (events l))
                                      then [EvMake (length ready * 2)] else []))).
           rewrite errors_reported_app, errors_reported_call_events.
           by destruct (grows _ _).
    + rewrite wait_iter_overflow in * by (done || lia). cbn [fst snd] in *.
      exists []. split_and!; try done. by left.
Qed.

Lemma wait_loop_shape (h : Handler) (script : list (Z + list unix_EpollEvent)) :
  ∀ (l : Locals) (w : World Epoll),
  locals_ok l →
  Z.of_nat (length (events l)) ∈ capacities →
  ∃ tr,
    snd (wait_loop temporaryErr h script l w) = mkWorld (inst w) (log w ++ tr) ∧
    lock_run Free tr = Some Free ∧
    Forall (wait_ev_ok (ep_fd (inst w))) tr ∧
    (errors_reported tr = []
     ∨ ∃ e, inl e ∈ script ∧ temporaryErr (Errno e) = false ∧
            errors_reported tr = [(h, Errno e)] ∧
            fst (wait_loop temporaryErr h script l w) = Ok tt).
Proof.
  induction script as [|r script IH]; intros l w Hok Hcap.
  - exists []. destruct w. cbn. rewrite app_nil_r. split_and!; try done. by left.
  - cbn [wait_loop]. unfold bind at 1 2.
    destruct (wait_iter_shape h r l w Hok) as (tr & Hw & Hlock & Hev & Herr & Hnext).
    destruct (wait_iter temporaryErr h r l w) as [res w1].
    cbn [fst snd] in *. subst w1.
    assert (Hwait : wait_ev_ok (ep_fd (inst w))
                      (EvEpollWait (ep_fd (inst w)) (length (events l)) (-1) r)) by done.
    destruct res as [[l'|]|msg|].
    + destruct Hnext as [Hok' Hcap'].
      destruct (IH l' (mkWorld (inst w)
        (log w ++ EvEpollWait (ep_fd (inst w)) (length (events l)) (-1) r :: tr)) Hok')
        as (tr2 & Hw2 & Hlock2 & Hev2 & Herr2).
      { rewrite Hcap'. by apply next_cap_capacities. }
      destruct Herr as [Herr|(e & _ & _ & _ & [=])].
      exists (EvEpollWait (ep_fd (inst w)) (length (events l)) (-1) r :: tr ++ tr2).
      rewrite Hw2. cbn [inst log] in *. split_and!.
      * by rewrite <- app_assoc.
      * cbn [lock_run]. by rewrite lock_run_app, Hlock.
      * apply Forall_cons. split; [done|]. by apply Forall_app.
      * unfold errors_reported at 1. cbn. fold (errors_reported (tr ++ tr2)).
        rewrite errors_reported_app, Herr. cbn [app].
        destruct Herr2 as [Herr2|(e & Hin & Htmp & Herr2 & Hres)]; [by left|].
        right. exists e. split_and!; try done. by apply list_elem_of_further.
    + exists (EvEpollWait (ep_fd (inst w)) (length (events l)) (-1) r :: tr).
      cbn. split_and!; try done.
      * by apply Forall_cons.
      * destruct Herr as [Herr|(e & -> & Htmp & Herr & _)]; [by left|].
        right. exists e. split_and!; try done. apply list_elem_of_here.
    + exists (EvEpollWait (ep_fd (inst w)) (length (events l)) (-1) r :: tr).
      cbn. split_and!; try done.
      * by apply Forall_cons.
      * destruct Herr as [Herr|(e & _ & _ & _ & [=])]. by left.
    + exists (EvEpollWait (ep_fd (inst w)) (length (events l)) (-1) r :: tr).
      cbn. split_and!; try done.
      * by apply Forall_cons.
      * destruct Herr as [Herr|(e & _ & _ & _ & [=])]. by left.
Qed.

(** The log of [wait] is [make], the log of the loop, and the log of the
    deferred function unless the loop is blocked. *)
Lemma wait_shape (h : Handler) (script : list (Z + list unix_EpollEvent))
    (r_close : option Z) (ep : Epoll) :
  ep_waitDone ep = false →
  ∃ tr,
    run (wait temporaryErr h script r_close) ep
      = match fst (run (wait temporaryErr h script r_close) ep) with
        | Blocked => (Blocked, mkWorld ep (EvMake maxWaitEventsBegin :: tr))
        | res => (res, mkWorld (set_waitDone true ep)
                         (EvMake maxWaitEventsBegin :: tr
                          ++ cleanup_log h (ep_fd ep) r_close))
        end ∧
    lock_run Free tr = Some Free ∧
    Forall (wait_ev_ok (ep_fd ep)) tr ∧
    (errors_reported tr = []
     ∨ ∃ e, inl e ∈ script ∧ temporaryErr (Errno e) = false ∧
            errors_reported tr = [(h, Errno e)] ∧
            fst (run (wait temporaryErr h script r_close) ep) = Ok tt).
Proof.
  intros Hd.
  destruct (wait_unfold temporaryErr h script r_close ep Hd) as [Hinst Hrun].
  set (l0 := {| events := make_events maxWaitEventsBegin;
                callbacks := make_callbacks maxWaitEventsBegin |}) in *.
  assert (Hok : locals_ok l0).
  { unfold locals_ok, l0, make_events, make_callbacks.
    cbn [arr callbacks events]. by rewrite !length_replicate. }
  assert (Hcap : Z.of_nat (length (events l0)) ∈ capacities).
  { unfold l0, make_events. cbn [events]. rewrite length_replicate.
    apply list_elem_of_here. }
  destruct (wait_loop_shape h script l0
              (mkWorld ep [EvMake maxWaitEventsBegin]) Hok Hcap)
    as (tr & Hw & Hlock & Hev & Herr).
  exists tr. rewrite Hrun.
  destruct (wait_loop temporaryErr h script l0 _) as [res w1].
  cbn [fst snd inst log] in *. subst w1. cbn [log app].
  split_and!; try done.
  - by destruct res as [[]|msg|].
  - destruct Herr as [Herr|(e & Hin & Htmp & Herr & ->)]; [by left|].
    right. by exists e.
Qed.

(** X12. Over a whole run of [wait], whatever the kernel answers: the loop
    takes the read lock only when it does not hold it and releases it
    before it goes on, it calls [EpollWait] and invokes callbacks only
    while it does not hold the lock, and it holds no lock when it is
    blocked in [EpollWait] or has ended. *)
Theorem wait_lock_discipline (h : Handler)
    (script : list (Z + list unix_EpollEvent)) (r_close : option Z) (ep : Epoll) :
  ep_waitDone ep = false →
  lock_run Free (log (snd (run (wait temporaryErr h script r_close) ep)))
    = Some Free.
Proof.
  intros Hd. destruct (wait_shape h script r_close ep Hd) as (tr & Hrun & Hlock & _).
  rewrite Hrun.
  destruct (fst (run (wait temporaryErr h script r_close) ep)) as [[]|msg|];
    cbn [snd log lock_run]; rewrite ?lock_run_app, Hlock; cbn;
    try done; by destruct r_close.
Qed.

(** X13. Over a whole run of [wait], whatever the kernel answers, every
    call of [EpollWait] is made on the polling handle of the instance,
    without a timeout, with a buffer of 1024, 2048, 4096, 8192, 16384 or
    32768 entries. *)
Theorem wait_calls_bounded (h : Handler)
    (script : list (Z + list unix_EpollEvent)) (r_close : option Z) (ep : Epoll) :
  ep_waitDone ep = false →
  Forall (wait_ev_ok (ep_fd ep))
    (log (snd (run (wait temporaryErr h script r_close) ep))).
Proof.
  intros Hd. destruct (wait_shape h script r_close ep Hd) as (tr & Hrun & _ & Hev & _).
  rewrite Hrun.
  destruct (fst (run (wait temporaryErr h script r_close) ep)) as [[]|msg|];
    cbn [snd log]; apply Forall_cons; (split; [done|]); try done;
    apply Forall_app; (split; [done|]);
    destruct r_close; by repeat constructor.
Qed.

(** X14. Over a whole run of [wait] the error handler is invoked at most
    twice, and with nothing but errors of system calls: once with the error
    of an [EpollWait] that [temporaryErr] rejects, after which the loop
    returns, and once, when [wait] ends, with the error of the close of the
    polling handle when that close fails. *)
Theorem wait_error_reports (h : Handler)
    (script : list (Z + list unix_EpollEvent)) (r_close : option Z) (ep : Epoll) :
  ep_waitDone ep = false →
  let out := run (wait temporaryErr h script r_close) ep in
  let closing := match fst out, r_close with
                 | Blocked, _ | _, None => []
                 | _, Some e => [(h, Errno e)]
                 end in
  errors_reported (log (snd out)) = closing
  ∨ ∃ e, inl e ∈ script ∧ temporaryErr (Errno e) = false ∧ fst out = Ok tt ∧
         errors_reported (log (snd out)) = (h, Errno e) :: closing.
Proof.
  intros Hd out closing.
  destruct (wait_shape h script r_close ep Hd) as (tr & Hrun & _ & _ & Herr).
  fold out in Hrun, Herr. subst closing.
  assert (Hclean : errors_reported (cleanup_log h (ep_fd ep) r_close)
                   = match r_close with Some e => [(h, Errno e)] | None => [] end)
    by by destruct r_close.
  assert (Hlog : errors_reported (log (snd out))
                 = errors_reported tr
                   ++ match fst out, r_close with
                      | Blocked, _ | _, None => []
                      | _, Some e => [(h, Errno e)]
                      end).
  { rewrite Hrun. destruct (fst out) as [[]|msg|]; cbn [snd log].
    - change (EvMake maxWaitEventsBegin :: tr ++ cleanup_log h (ep_fd ep) r_close)
        with ([EvMake maxWaitEventsBegin] ++ tr ++ cleanup_log h (ep_fd ep) r_close).
      rewrite !errors_reported_app, Hclean. by destruct r_close.
    - change (EvMake maxWaitEventsBegin :: tr ++ cleanup_log h (ep_fd ep) r_close)
        with ([EvMake maxWaitEventsBegin] ++ tr ++ cleanup_log h (ep_fd ep) r_close).
      rewrite !errors_reported_app, Hclean. by destruct r_close.
    - change (EvMake maxWaitEventsBegin :: tr) with ([EvMake maxWaitEventsBegin] ++ tr).
      rewrite errors_reported_app. cbn. by rewrite app_nil_r. }
  rewrite Hlog.
  destruct Herr as [->|(e & Hin & Htmp & -> & Hres)]; [by left|].
  right. exists e. by rewrite Hres.
Qed.

End Loop.

(** ** Running on, and shutting down *)

Section Shutdown.

Variable temporaryErr : error → bool.
Variable range_order : gmap Z Func → list (Z * Func).
Hypothesis range_order_perm : ∀ m, range_order m ≡ₚ map_to_list m.

(** What happens while the loop of [wait] runs: the kernel answers its
    [EpollWait], or another goroutine (a callback as well) calls a method
    of the instance.  The lock of the instance puts such a call before or
    after the lookups of a turn of the loop, never among them. *)
Inductive Step :=
| Answer (r : Z + list unix_EpollEvent)
| Client (c : Call).

(** The [for] of [wait] among the calls of the other goroutines. *)
Fixpoint wait_loop_with (onError : Handler) (ss : list Step) (l : Locals)
    : M Epoll unit :=
  match ss with
  | [] => block
  | Answer r :: ss' =>
    c <- wait_iter temporaryErr onError r l ;;
    match c with
    | Continue l' => wait_loop_with onError ss' l'
    | Return => ret tt
    end
  | Client c :: ss' =>
    exec range_order c ;;;
    wait_loop_with onError ss' l
  end.

(** [wait] from a turn of its loop on, with the buffers [l] it has there. *)
Definition wait_from (onError : Handler) (l : Locals) (ss : list Step)
    (r_close : option Z) : M Epoll unit :=
  defer (wait_cleanup onError r_close) (wait_loop_with onError ss l).

(** An answer of the kernel that lets the loop go on: a failure that
    [temporaryErr] accepts, or a batch without the wake handle; a batch is
    never longer than the buffer given to [EpollWait]. *)
Definition quiet (eventFd : Z) (cap : nat) (r : Z + list unix_EpollEvent) : Prop :=
  match r with
  | inl e => temporaryErr (Errno e) = true
  | inr ready => (length ready ≤ cap)%nat ∧ has_wake eventFd ready = false
  end.

(** Steps that let the loop go on, from buffers of capacity [cap]: answers
    as above, each for the capacity the answers before it have left, and
    calls that are no [Close] of an open instance. *)
Fixpoint quiet_from (closed : bool) (eventFd : Z) (cap : nat) (ss : list Step)
    : Prop :=
  match ss with
  | [] => True
  | Answer r :: ss' =>
      quiet eventFd cap r ∧ quiet_from closed eventFd (next_cap r cap) ss'
  | Client c :: ss' =>
      (closed = true ∨ is_close c = false) ∧ quiet_from closed eventFd cap ss'
  end.

(** The capacity of the buffers after the steps. *)
Fixpoint cap_after (cap : nat) (ss : list Step) : nat :=
  match ss with
  | [] => cap
  | Answer r :: ss' => cap_after (next_cap r cap) ss'
  | Client _ :: ss' => cap_after cap ss'
  end.

(** The table after a call: an open instance registers and unregisters,
    a closed one does nothing. *)
Definition table_step (closed : bool) (c : Call) (m : gmap Z Func) : gmap Z Func :=
  if closed then m else reg_step c m.

(** The table after the steps. *)
Fixpoint table_after (closed : bool) (m : gmap Z Func) (ss : list Step)
    : gmap Z Func :=
  match ss with
  | [] => m
  | Answer _ :: ss' => table_after closed m ss'
  | Client c :: ss' => table_after closed (table_step closed c m) ss'
  end.

(** The invocations the loop owes to the steps: for every batch, in order,
    those of its ready entries in the table as the calls before the batch
    have left it. *)
Fixpoint owed (closed : bool) (m : gmap Z Func) (ss : list Step)
    : list (Cb * EpollEvent) :=
  match ss with
  | [] => []
  | Answer (inl _) :: ss' => owed closed m ss'
  | Answer (inr ready) :: ss' => ready_calls (Some m) ready ++ owed closed m ss'
  | Client c :: ss' => owed closed (table_step closed c m) ss'
  end.

Lemma closed_handles_call_events (cs : list (Cb * EpollEvent)) :
  closed_handles (call_events cs) = [].
Proof.
  unfold closed_handles. induction cs as [|[cb evt] cs IH]; [done|]. by cbn.
Qed.

Lemma written_call_events (cs : list (Cb * EpollEvent)) :
  written (call_events cs) = [].
Proof.
  unfold written. induction cs as [|[cb evt] cs IH]; [done|]. by cbn.
Qed.

Lemma written_app (tr1 tr2 : list Ev) :
  written (tr1 ++ tr2) = written tr1 ++ written tr2.
Proof. apply omap_app. Qed.

Lemma calls_cons_other (e : Ev) (tr : list Ev) :
  (∀ cb evt, e ≠ EvCall cb evt) → calls (e :: tr) = calls tr.
Proof. intros He. unfold calls. cbn. destruct e; try done. by destruct (He cb evt). Qed.

(** A log that is silent: it invokes no callback, reports no error, closes
    no handle, writes to none, and leaves the lock free. *)
Definition silent (tr : list Ev) : Prop :=
  calls tr = [] ∧ errors_reported tr = [] ∧ closed_handles tr = [] ∧
  written tr = [] ∧ lock_run Free tr = Some Free.

(** A call that is no [Close], on an open instance with a table. *)
Lemma exec_open_silent (c : Call) (ep : Epoll) (m : gmap Z Func) (tr : list Ev) :
  ep_closed ep = false →
  ep_callbacks ep = Some m →
  is_close c = false →
  ∃ err tr',
    exec range_order c (mkWorld ep tr)
      = (Ok err, mkWorld (set_callbacks (Some (reg_step c m)) ep) (tr ++ tr')) ∧
    silent tr'.
Proof.
  intros Hc Hm Hclose.
  assert (Hep : set_callbacks (Some m) ep = ep)
    by (destruct ep; cbn in *; by subst).
  destruct c as [fd events cb r|fd r|fd events r|]; [| | |done]; cbn [reg_step].
  - destruct (m !! fd) as [cb0|] eqn:Hfd.
    + exists (Some ErrRegistered), [EvLock; EvUnlock].
      run_go ltac:(rewrite ?Hc, ?Hm, ?Hfd). by rewrite Hep, <- app_assoc.
    + eexists (as_error r), _.
      run_go ltac:(rewrite ?Hc, ?Hm, ?Hfd). rewrite <- !app_assoc.
      split; [reflexivity|done].
  - destruct (m !! fd) as [cb0|] eqn:Hfd.
    + eexists (as_error r), _.
      run_go ltac:(rewrite ?Hc, ?Hm, ?Hfd). rewrite <- !app_assoc.
      split; [reflexivity|done].
    + exists (Some ErrNotRegistered), [EvLock; EvUnlock].
      run_go ltac:(rewrite ?Hc, ?Hm, ?Hfd).
      rewrite delete_id by done. by rewrite Hep, <- app_assoc.
  - destruct (m !! fd) as [cb0|] eqn:Hfd.
    + eexists (as_error r), _.
      run_go ltac:(rewrite ?Hc, ?Hm, ?Hfd). rewrite Hep, <- !app_assoc.
      split; [reflexivity|done].
    + exists (Some ErrNotRegistered), [EvRLock; EvRUnlock].
      run_go ltac:(rewrite ?Hc, ?Hm, ?Hfd). by rewrite Hep, <- app_assoc.
Qed.

(** Any call on an instance with a table, when it is no [Close] of an open
    instance. *)
Lemma exec_silent (c : Call) (ep : Epoll) (m : gmap Z Func) (tr : list Ev) :
  ep_callbacks ep = Some m →
  ep_closed ep = true ∨ is_close c = false →
  ∃ err tr',
    exec range_order c (mkWorld ep tr)
      = (Ok err,
         mkWorld (set_callbacks (Some (table_step (ep_closed ep) c m)) ep)
           (tr ++ tr')) ∧
    silent tr'.
Proof.
  intros Hm Hc. destruct (ep_closed ep) eqn:Hclosed.
  - exists (Some ErrClosed), (closed_log c).
    rewrite (exec_closed range_order c (mkWorld ep tr)) by done.
    cbn [inst log table_step]. split.
    + do 2 f_equal. destruct ep; cbn in *; by subst.
    + by destruct c.
  - destruct Hc as [|Hc]; [done|]. by apply exec_open_silent.
Qed.

(** The loop over steps that let it go on. *)
Lemma wait_loop_with_quiet (h : Handler) (pre rest : list Step) :
  ∀ (l : Locals) (ep : Epoll) (m : gmap Z Func) (tr0 : list Ev),
  locals_ok l →
  ep_callbacks ep = Some m →
  quiet_from (ep_closed ep) (ep_eventFd ep) (length (events l)) pre →
  ∃ l' tr,
    locals_ok l' ∧
    length (events l') = cap_after (length (events l)) pre ∧
    wait_loop_with h (pre ++ rest) l (mkWorld ep tr0)
      = wait_loop_with h rest l'
          (mkWorld (set_callbacks (Some (table_after (ep_closed ep) m pre)) ep)
             (tr0 ++ tr)) ∧
    calls tr = owed (ep_closed ep) m pre ∧
    errors_reported tr = [] ∧
    closed_handles tr = [] ∧
    written tr = [] ∧
    lock_run Free tr = Some Free.
Proof.
  induction pre as [|[r|c] pre IH]; intros l ep m tr0 Hok Hm Hpre.
  - exists l, []. cbn. rewrite app_nil_r. split_and!; try done.
    do 2 f_equal. destruct ep; cbn in *; by subst.
  - destruct Hpre as [Hr Hpre].
    cbn [app wait_loop_with cap_after table_after]. unfold bind at 1.
    destruct (wait_iter_summary temporaryErr h r l (mkWorld ep tr0) Hok)
      as (tr1 & _ & _ & Hnext).
    destruct r as [e|ready]; cbn [quiet] in Hr.
    + rewrite wait_iter_error, Hr in *. cbn [fst inst log] in *.
      destruct (IH l ep m
                  (tr0 ++ [EvEpollWait (ep_fd ep) (length (events l)) (-1) (inl e)])
                  Hok Hm Hpre)
        as (l' & tr & Hok' & Hcap' & Hloop & Hcalls & Herr & Hcl & Hwr & Hlock).
      exists l', (EvEpollWait (ep_fd ep) (length (events l)) (-1) (inl e) :: tr).
      rewrite Hloop, <- app_assoc. split_and!; try done.
    + destruct Hr as [Hn Hwake].
      rewrite wait_iter_ready in * by (done || lia). cbn [fst inst log] in *.
      destruct Hnext as [Hok1 Hcap1].
      match goal with
      | |- context [wait_loop_with _ _ ?l1 (mkWorld _ ?tr1)] =>
          destruct (IH l1 ep m tr1 Hok1 Hm) as
            (l' & tr & Hok' & Hcap' & Hloop & Hcalls & Herr & Hcl & Hwr & Hlock)
      end.
      { by rewrite Hcap1. }
      eexists l', _. rewrite Hloop, Hm. rewrite <- !app_assoc.
      split_and!; [done|by rewrite Hcap', Hcap1|reflexivity| | | | |].
      * cbn [app owed]. rewrite !calls_cons_other by done.
        rewrite !calls_app, calls_call_events, Hcalls.
        by destruct (grows _ _).
      * change (?a :: ?b :: ?c :: ?t) with ([a; b; c] ++ t).
        rewrite !errors_reported_app, errors_reported_call_events, Herr.
        by destruct (grows _ _).
      * change (?a :: ?b :: ?c :: ?t) with ([a; b; c] ++ t).
        rewrite !closed_handles_app, closed_handles_call_events, Hcl.
        by destruct (grows _ _).
      * change (?a :: ?b :: ?c :: ?t) with ([a; b; c] ++ t).
        rewrite !written_app, written_call_events, Hwr.
        by destruct (grows _ _).
      * cbn [app lock_run]. rewrite !lock_run_app, lock_run_call_events. cbn.
        by destruct (grows _ _).
  - destruct Hpre as [Hc Hpre].
    cbn [app wait_loop_with cap_after table_after owed]. unfold bind at 1.
    destruct (exec_silent c ep m tr0 Hm Hc)
      as (err & tr1 & Hexec & Hs1 & Hs2 & Hs3 & Hs4 & Hs5).
    rewrite Hexec.
    destruct (IH l (set_callbacks (Some (table_step (ep_closed ep) c m)) ep)
                (table_step (ep_closed ep) c m) (tr0 ++ tr1) Hok eq_refl Hpre)
      as (l' & tr & Hok' & Hcap' & Hloop & Hcalls & Herr & Hcl & Hwr & Hlock).
    exists l', (tr1 ++ tr). rewrite Hloop.
    cbn [set_callbacks ep_closed] in *. rewrite <- app_assoc.
    split_and!; [done|done|done| | | | |].
    + by rewrite calls_app, Hs1.
    + by rewrite errors_reported_app, Hs2.
    + by rewrite closed_handles_app, Hs3.
    + by rewrite written_app, Hs4.
    + by rewrite lock_run_app, Hs5.
Qed.

Lemma wait_loop_with_answers (h : Handler) (script : list (Z + list unix_EpollEvent)) :
  ∀ (l : Locals) (w : World Epoll),
  wait_loop_with h (Answer <$> script) l w = wait_loop temporaryErr h script l w.
Proof.
  induction script as [|r script IH]; intros l w; [done|].
  cbn [fmap list_fmap wait_loop_with wait_loop]. unfold bind.
  destruct (wait_iter temporaryErr h r l w) as [[[l1|]|msg|] w1]; [|done..].
  apply IH.
Qed.

(** X15. [wait] is its loop from the first buffers on.  From any turn of
    the loop (its two buffers have the same capacity, as they always do),
    on an open instance that has a table: as long as the kernel
    answers [EpollWait] with failures that [temporaryErr] accepts and with
    batches that fit the buffer and do not hold the wake handle, while
    other goroutines call [Add], [Del] and [Mod] between the turns, [wait]
    does not end: it is blocked in [EpollWait] after the last step, has
    closed nothing and reported no error, has left in the table what the
    calls have made of it, and has invoked, batch after batch and in the
    order of each batch, the function of every ready entry whose handle had
    one in the table when the batch was looked up. *)
Theorem wait_runs_on (h : Handler) (r_close : option Z) :
  (∀ script w,
    wait temporaryErr h script r_close w
    = wait_from h {| events := make_events maxWaitEventsBegin;
                     callbacks := make_callbacks maxWaitEventsBegin |}
        (Answer <$> script) r_close
        (mkWorld (inst w) (log w ++ [EvMake maxWaitEventsBegin]))) ∧
  (∀ ss l ep m,
    ep_closed ep = false →
    ep_callbacks ep = Some m →
    locals_ok l →
    quiet_from false (ep_eventFd ep) (length (events l)) ss →
    ∃ tr,
      run (wait_from h l ss r_close) ep
        = (Blocked,
           mkWorld {| ep_fd := ep_fd ep; ep_eventFd := ep_eventFd ep;
                      ep_closed := false; ep_waitDone := ep_waitDone ep;
                      ep_callbacks := Some (table_after false m ss) |} tr) ∧
      calls tr = owed false m ss ∧
      errors_reported tr = [] ∧
      closed_handles tr = []).
Proof.
  split.
  - intros script w. unfold wait, wait_from, defer.
    unfold bind at 1, emit at 1. by rewrite wait_loop_with_answers.
  - intros ss l ep m Hc Hm Hok Hquiet.
    rewrite <- Hc in Hquiet.
    destruct (wait_loop_with_quiet h ss [] l ep m [] Hok Hm Hquiet)
      as (l' & tr & _ & _ & Hloop & Hcalls & Herr & Hcl & _ & _).
    rewrite app_nil_r in Hloop. rewrite Hc in *.
    exists tr. split_and!; try done.
    unfold wait_from, run, defer. rewrite Hloop. cbn [wait_loop_with block app].
    do 2 f_equal. unfold set_callbacks. by rewrite Hc.
Qed.

Lemma table_after_closed (m : gmap Z Func) (ss : list Step) :
  table_after true m ss = m.
Proof. induction ss as [|[r|c] ss IH]; done. Qed.

(** X16. A whole shutdown.  On an open instance whose loop is running, at
    any turn and with the buffers it has there, [Close] with a write to the
    wake handle and a close of it that succeed, while the kernel lets the
    loop go on for a while (failures that [temporaryErr] accepts, batches
    that fit the buffer and do not hold the wake handle), other goroutines
    call methods of the instance in the meantime, and the kernel then
    reports a batch with the wake handle: [Close] returns nil; the instance
    is closed, its channel closed and its table nil; the polling handle and
    the wake handle have each been closed once, in that order; the
    callbacks invoked are those the loop owed to its batches, and then one
    invocation with [_EPOLLCLOSED] for every entry of the table whose
    function is not nil; and no lock is held at a callback, at a blocking
    call, or at the end. *)
Theorem Close_shuts_down (h : Handler) (ep : Epoll) (m : gmap Z Func)
    (l : Locals) (pre post : list Step) (wake : list unix_EpollEvent)
    (n : Z) (r_fd : option Z) :
  ep_closed ep = false →
  ep_waitDone ep = false →
  ep_callbacks ep = Some m →
  locals_ok l →
  quiet_from true (ep_eventFd ep) (length (events l)) pre →
  (length wake ≤ cap_after (length (events l)) pre)%nat →
  has_wake (ep_eventFd ep) wake = true →
  let bg := wait_from h l (pre ++ Answer (inr wake) :: post) r_fd in
  ∃ tr flush,
    run (Close range_order (inr n) bg None) ep
      = (Ok None,
         mkWorld {| ep_fd := ep_fd ep; ep_eventFd := ep_eventFd ep;
                    ep_closed := true; ep_waitDone := true;
                    ep_callbacks := None |} tr) ∧
    closed_handles tr = [ep_fd ep; ep_eventFd ep] ∧
    written tr = [ep_eventFd ep] ∧
    calls tr = owed true m pre ++ flush ∧
    flush ≡ₚ closed_calls (map_to_list m) ∧
    lock_run Free tr = Some Free.
Proof.
  intros Hc Hd Hm Hok Hquiet Hn Hwake bg.
  set (tr0 := [EvLock; EvSetClosed true;
               EvWrite (ep_eventFd ep) closeBytes (inr n); EvUnlock]).
  destruct (wait_loop_with_quiet h pre (Answer (inr wake) :: post) l
              (set_closed true ep) m tr0 Hok Hm Hquiet)
    as (l' & tr & Hok' & Hcap' & Hloop & Hcalls & Herr & Hcl & Hwr & Hlock).
  cbn [set_closed ep_closed] in Hloop, Hcalls.
  rewrite table_after_closed in Hloop.
  set (tr1 := tr0 ++ tr
              ++ [EvEpollWait (ep_fd ep) (length (events l')) (-1) (inr wake);
                  EvRLock; EvRUnlock]
              ++ cleanup_log h (ep_fd ep) r_fd).
  assert (Hbg : bg (mkWorld (set_closed true ep) tr0)
                = (Ok tt, mkWorld (set_waitDone true (set_closed true ep)) tr1)).
  { unfold bg, wait_from, defer. rewrite Hloop.
    cbn [wait_loop_with]. unfold bind at 1.
    rewrite wait_iter_wake by (done || lia). unfold ret.
    rewrite wait_cleanup_ok by done.
    cbn [inst log set_closed set_callbacks ep_fd].
    subst tr1. rewrite <- !app_assoc. do 2 f_equal.
    unfold set_waitDone. cbn. by rewrite Hm. }
  pose proof (Close_after_loop range_order ep n bg
                (mkWorld (set_waitDone true (set_closed true ep)) tr1) m Hc Hbg
                eq_refl Hm) as Hrun.
  cbn [inst log set_waitDone set_closed ep_eventFd] in Hrun.
  eexists _, (closed_calls (range_order m)). split; [exact Hrun|].
  assert (Hcalls1 : calls tr1 = owed true m pre).
  { subst tr1 tr0. rewrite !calls_app, Hcalls.
    by destruct r_fd; cbn; rewrite app_nil_r. }
  split_and!.
  - subst tr1 tr0. rewrite !closed_handles_app, Hcl, closed_handles_call_events.
    by destruct r_fd.
  - subst tr1 tr0. rewrite !written_app, Hwr, written_call_events.
    by destruct r_fd.
  - rewrite calls_app, Hcalls1. f_equal.
    rewrite calls_app. cbn. fold (calls (call_events (closed_calls (range_order m)))).
    apply calls_call_events.
  - apply closed_calls_range, range_order_perm.
  - subst tr1 tr0. rewrite !lock_run_app. cbn.
    rewrite lock_run_app, Hlock. cbn.
    destruct r_fd; cbn; apply lock_run_call_events.
Qed.

End Shutdown.

(** ** From [Add] to the callback *)

Lemma int32_range (z : Z) : -2 ^ 31 ≤ int32 z < 2 ^ 31.
Proof.
  unfold int32, wrap_signed.
  pose proof (Z.mod_pos_bound (z + 2 ^ (32 - 1)) (2 ^ 32)). lia.
Qed.

Lemma int_int32 (z : Z) : int (int32 z) = int32 z.
Proof.
  pose proof (int32_range z) as Hr. unfold int, wrap_signed.
  rewrite Z.mod_small; lia.
Qed.

Lemma int32_small (z : Z) : -2 ^ 31 ≤ z < 2 ^ 31 → int32 z = z.
Proof. intros Hz. unfold int32, wrap_signed. rewrite Z.mod_small; lia. Qed.

Section Report.

Variable temporaryErr : error → bool.

(** X10. A handle that fits 32 bits and is not the wake handle is found
    again: after an [Add] of it with a callback on an open instance, an
    iteration of the loop to which the kernel reports the event that [Add]
    has registered for it invokes that callback, once, with the mask the
    kernel reports. *)
Theorem registered_handle_is_dispatched (h : Handler) (ep : Epoll)
    (m : gmap Z Func) (fd : Z) (mask evt : EpollEvent) (cb : Cb) (l : Locals) :
  ep_closed ep = false →
  ep_callbacks ep = Some m →
  m !! fd = None →
  -2 ^ 31 ≤ fd < 2 ^ 31 →
  fd ≠ ep_eventFd ep →
  locals_ok l →
  (1 ≤ length (events l))%nat →
  let report := {| Events := evt; Fd := int32 fd |} in
  ∃ l' tr,
    run (Add fd mask (Some cb) None ;;;
         wait_iter temporaryErr h (inr [report]) l) ep
      = (Ok (Continue l'),
         mkWorld (set_callbacks (Some (<[fd := Some cb]> m)) ep) tr) ∧
    EvEpollCtl (ep_fd ep) EPOLL_CTL_ADD fd
      (Some {| Events := uint32 mask; Fd := int32 fd |}) None ∈ tr ∧
    calls tr = [(cb, evt)].
Proof.
  intros Hc Hm Hfd Hrange Hne Hok Hcap report.
  assert (HAdd : run (Add fd mask (Some cb) None) ep
    = (Ok None, mkWorld (set_callbacks (Some (<[fd := Some cb]> m)) ep)
         [EvLock; EvMapStore fd (Some cb);
          EvEpollCtl (ep_fd ep) EPOLL_CTL_ADD fd
            (Some {| Events := uint32 mask; Fd := int32 fd |}) None;
          EvUnlock])) by by run_go ltac:(rewrite ?Hc, ?Hm, ?Hfd).
  unfold run in *. unfold bind at 1. rewrite HAdd.
  rewrite wait_iter_ready; cbn [inst log set_callbacks ep_eventFd ep_callbacks ep_fd length];
    [|done|done|].
  2:{ cbn. rewrite int_int32, int32_small by done.
      by rewrite bool_decide_eq_false_2. }
  do 2 eexists. split; [reflexivity|]. split.
  - rewrite !elem_of_app. left. do 2 apply list_elem_of_further.
    apply list_elem_of_here.
  - rewrite !calls_app, calls_call_events. cbn.
    unfold ready_calls, lookup_ready. cbn.
    rewrite int_int32, int32_small, lookup_insert_eq by done. cbn.
    by destruct (grows _ _).
Qed.

(** X11. A handle that does not fit 32 bits is not found again: [Add]
    registers it under the handle itself but gives the kernel its low 32
    bits, and the loop looks up what the kernel reports.  After such an
    [Add], an iteration to which the kernel reports the registered event
    invokes what the table held for the truncated handle, as if the [Add]
    had not been made. *)
Theorem wide_handle_is_not_dispatched (h : Handler) (ep : Epoll)
    (m : gmap Z Func) (fd : Z) (mask evt : EpollEvent) (cb : Func) (l : Locals) :
  ep_closed ep = false →
  ep_callbacks ep = Some m →
  m !! fd = None →
  ¬ (-2 ^ 31 ≤ fd < 2 ^ 31) →
  int32 fd ≠ ep_eventFd ep →
  locals_ok l →
  (1 ≤ length (events l))%nat →
  let report := {| Events := evt; Fd := int32 fd |} in
  int32 fd ≠ fd ∧
  ∃ l' tr,
    run (Add fd mask cb None ;;;
         wait_iter temporaryErr h (inr [report]) l) ep
      = (Ok (Continue l'),
         mkWorld (set_callbacks (Some (<[fd := cb]> m)) ep) tr) ∧
    calls tr = ready_calls (Some m) [report].
Proof.
  intros Hc Hm Hfd Hrange Hne Hok Hcap report.
  assert (Hwide : int32 fd ≠ fd).
  { pose proof (int32_range fd). intros Heq. rewrite Heq in *. lia. }
  split; [done|].
  assert (HAdd : run (Add fd mask cb None) ep
    = (Ok None, mkWorld (set_callbacks (Some (<[fd := cb]> m)) ep)
         [EvLock; EvMapStore fd cb;
          EvEpollCtl (ep_fd ep) EPOLL_CTL_ADD fd
            (Some {| Events := uint32 mask; Fd := int32 fd |}) None;
          EvUnlock])) by by run_go ltac:(rewrite ?Hc, ?Hm, ?Hfd).
  unfold run in *. unfold bind at 1. rewrite HAdd.
  rewrite wait_iter_ready; cbn [inst log set_callbacks ep_eventFd ep_callbacks ep_fd length];
    [|done|done|].
  2:{ cbn. rewrite int_int32. by rewrite bool_decide_eq_false_2. }
  do 2 eexists. split; [reflexivity|].
  rewrite !calls_app, calls_call_events. cbn.
  unfold ready_calls, lookup_ready. cbn.
  rewrite int_int32, lookup_insert_ne by done.
  by destruct (grows _ _); rewrite app_nil_r.
Qed.

End Report.

(** ** [EpollCreate] *)

(** X18. [EpollCreate] returns an instance exactly when its three system
    calls succeed, and an error and no instance otherwise.  The new
    instance is open, with an empty table and an open channel; it owns the
    two handles the kernel has given; the wake handle is registered with
    the polling handle for [EPOLLIN] under its own number; no handle has
    been closed; and the loop is started with the handler of the
    configuration, or with the default one when there is no configuration
    or no handler in it. *)
Theorem EpollCreate_outcome (c : option EpollConfig) (r_create : Z + Z)
    (r0 errno : Z) (r_ctl r_close_fd r_close_eventFd : option Z) :
  let out := run (EpollCreate c r_create r0 errno r_ctl r_close_fd r_close_eventFd) tt in
  let h := match c with
           | Some {| OnWaitError := Some h |} => h
           | _ => defaultOnWaitError
           end in
  match r_create, bool_decide (errno = 0), r_ctl with
  | inr fd, true, None =>
      out = (Ok (Some {| ep_fd := fd; ep_eventFd := int r0; ep_closed := false;
                         ep_waitDone := false; ep_callbacks := Some ∅ |}, None),
             mkWorld tt
               [EvEpollCreate1 0 (inr fd); EvEventfd2 r0 0;
                EvEpollCtl fd EPOLL_CTL_ADD (int r0)
                  (Some {| Events := EPOLLIN; Fd := int32 (int r0) |}) None;
                EvGo h])
  | _, _, _ =>
      (∃ err, fst out = Ok (None, Some err)) ∧
      ∀ h', EvGo h' ∉ log (snd out)
  end.
Proof.
  intros out h.
  assert (Hh : handler_of (withDefaults c) = h) by by destruct c as [[[]]|].
  destruct r_create as [e|fd].
  { destruct (EpollCreate_create_failure c e r0 errno r_ctl r_close_fd r_close_eventFd)
      as [Hout _]. fold out in Hout. rewrite Hout. cbn [fst snd log].
    split; [by eexists|]. intros h'.
    rewrite not_elem_of_cons. split; [done|apply not_elem_of_nil]. }
  case_bool_decide as Herrno.
  - subst errno. destruct r_ctl as [e|].
    + destruct (EpollCreate_ctl_failure c fd r0 e r_close_fd r_close_eventFd)
        as [Hout _]. fold out in Hout. rewrite Hout. cbn [fst snd log].
      split; [by eexists|]. intros h'.
      rewrite !not_elem_of_cons. split_and!; try done. apply not_elem_of_nil.
    + subst out. rewrite <- Hh. apply EpollCreate_ok.
  - destruct (EpollCreate_eventfd_failure c fd r0 errno r_ctl r_close_fd
                r_close_eventFd Herrno) as [Hout _].
    fold out in Hout. rewrite Hout. cbn [fst snd log].
    destruct r_ctl; (split; [by eexists|]); intros h';
      rewrite !not_elem_of_cons; split_and!; try done; apply not_elem_of_nil.
Qed.

(** X19. When [EpollCreate1] fails, [EpollCreate] returns its error and has
    opened nothing.  When both handles are open and the registration of the
    wake handle fails, it returns the error of [EpollCtl] after a [Close]
    of the polling handle and a [Close] of the wake handle, whose results
    it does not look at: no handle is left open. *)
Theorem EpollCreate_failures_close (c : option EpollConfig) (fd r0 e : Z)
    (r_errno : Z) (r_ctl r_close_fd r_close_eventFd : option Z) :
  let first := run (EpollCreate c (inl e) r0 r_errno r_ctl r_close_fd r_close_eventFd) tt in
  let third := run (EpollCreate c (inr fd) r0 0 (Some e) r_close_fd r_close_eventFd) tt in
  fst first = Ok (None, Some (Errno e)) ∧
  opened (log (snd first)) = [] ∧
  fst third = Ok (None, Some (Errno e)) ∧
  opened (log (snd third)) = [fd; int r0] ∧
  closed_handles (log (snd third)) = [fd; int r0] ∧
  leaked (log (snd third)) = [].
Proof.
  intros first third.
  destruct (EpollCreate_ctl_failure c fd r0 e r_close_fd r_close_eventFd)
    as [Hrun Hleak].
  subst first third. rewrite Hrun. cbn [fst snd log].
  split_and!; done.
Qed.

(** ** These theorems at the worked inputs *)

(** Calls of a client on the open instance. *)
Definition some_calls : list Call :=
  [CallAdd 5 EPOLLIN (Some 2%nat) None; CallDel 7 (Some 2);
   CallMod 9 EPOLLOUT None; CallAdd 5 EPOLLOUT (Some 3%nat) None;
   CallDel 12 None; CallAdd 7 EPOLLIN None (Some 17)].

Lemma registration_replay_witness :
  ep_closed ep_open = false ∧
  ep_callbacks ep_open = Some {[ 7 := Some 1%nat; 9 := None ]} ∧
  Forall (λ c, is_close c = false) some_calls ∧
  ∃ errs m' tr,
    run (exec_all map_to_list some_calls) ep_open
      = (Ok errs, mkWorld (set_callbacks (Some m') ep_open) tr) ∧
    map_has (Some m') 5 = true ∧
    map_has (Some m') 7 = true ∧
    map_has (Some m') 12 = false ∧
    lock_run Free tr = Some Free.
Proof.
  assert (H1 : ep_closed ep_open = false) by reflexivity.
  assert (H2 : ep_callbacks ep_open = Some {[ 7 := Some 1%nat; 9 := None ]})
    by reflexivity.
  assert (H3 : Forall (λ c, is_close c = false) some_calls)
    by (repeat constructor).
  split; [exact H1|]. split; [exact H2|]. split; [exact H3|].
  destruct (registration_replay map_to_list some_calls ep_open _ H1 H2 H3)
    as (errs & m' & tr & Hrun & _ & Hreg & _ & Hlock).
  exists errs, m', tr. split; [exact Hrun|].
  split; [exact (Hreg 5)|]. split; [exact (Hreg 7)|].
  split; [exact (Hreg 12)|exact Hlock].
Defined.

Lemma Del_removes_entry_first_witness :
  let m : gmap Z Func := {[ 7 := Some 1%nat; 9 := None ]} in
  ep_closed ep_open = false ∧
  ep_callbacks ep_open = Some m ∧
  m !! 7 = Some (Some 1%nat) ∧
  fst (run (Del 7 (Some 2)) ep_open) = Ok (Some (Errno 2)) ∧
  run (Del 7 None) (set_callbacks (Some (delete 7 m)) ep_open)
    = (Ok (Some ErrNotRegistered),
       mkWorld (set_callbacks (Some (delete 7 m)) ep_open) [EvLock; EvUnlock]).
Proof.
  intros m.
  assert (H1 : ep_closed ep_open = false) by reflexivity.
  assert (H2 : ep_callbacks ep_open = Some m) by reflexivity.
  assert (H3 : m !! 7 = Some (Some 1%nat)) by reflexivity.
  split; [exact H1|]. split; [exact H2|]. split; [exact H3|].
  destruct (Del_removes_entry_first ep_open m 7 (Some 1%nat) (Some 2) H1 H2 H3)
    as (Hdel & Hagain & _).
  split; [by rewrite Hdel|exact (Hagain None)].
Defined.

Lemma Add_Del_round_trip_witness :
  let m : gmap Z Func := {[ 7 := Some 1%nat; 9 := None ]} in
  ep_closed ep_open = false ∧
  ep_callbacks ep_open = Some m ∧
  m !! 5 = None ∧
  inst (snd (run (Add 5 EPOLLIN (Some 2%nat) (Some 1) ;;; Del 5 (Some 2)) ep_open))
    = ep_open.
Proof.
  intros m.
  assert (H1 : ep_closed ep_open = false) by reflexivity.
  assert (H2 : ep_callbacks ep_open = Some m) by reflexivity.
  assert (H3 : m !! 5 = None) by reflexivity.
  split; [exact H1|]. split; [exact H2|]. split; [exact H3|].
  by rewrite (Add_Del_round_trip ep_open m 5 EPOLLIN (Some 2%nat) (Some 1) (Some 2)
                H1 H2 H3).
Defined.

Lemma closed_instance_is_inert_witness :
  ep_closed ep_shut = true ∧
  ∃ tr,
    run (exec_all map_to_list
           (CallClose (inr 8) (ret tt) None :: some_calls)) ep_shut
      = (Ok (replicate 7 (Some ErrClosed)), mkWorld ep_shut tr) ∧
    syscalls tr = [] ∧ calls tr = [].
Proof.
  split; [reflexivity|].
  apply (closed_instance_is_inert map_to_list
           (CallClose (inr 8) (ret tt) None :: some_calls) ep_shut).
  reflexivity.
Defined.

(** The zero value of [Epoll]. *)
Definition ep_zero : Epoll :=
  {| ep_fd := 0; ep_eventFd := 0; ep_closed := false; ep_waitDone := false;
     ep_callbacks := None |}.

Lemma nil_table_Add_panics_witness :
  ep_closed ep_zero = false ∧
  ep_callbacks ep_zero = None ∧
  run (Add 5 EPOLLIN (Some 2%nat) None) ep_zero
    = (Panic "assignment to entry in nil map", mkWorld ep_zero [EvLock; EvUnlock]).
Proof.
  split; [reflexivity|]. split; [reflexivity|].
  apply (nil_table_Add_panics ep_zero 5 EPOLLIN (Some 2%nat) None);
    reflexivity.
Defined.

Lemma registered_handle_is_dispatched_witness :
  let m : gmap Z Func := {[ 7 := Some 1%nat; 9 := None ]} in
  ep_closed ep_open = false ∧
  ep_callbacks ep_open = Some m ∧
  m !! 5 = None ∧
  -2 ^ 31 ≤ 5 < 2 ^ 31 ∧
  5 ≠ ep_eventFd ep_open ∧
  locals_ok locals_begin ∧
  (1 ≤ length (events locals_begin))%nat ∧
  ∃ l' tr,
    run (Add 5 EPOLLIN (Some 2%nat) None ;;;
         wait_iter temporary_eintr defaultOnWaitError
           (inr [{| Events := EPOLLHUP; Fd := int32 5 |}]) locals_begin) ep_open
      = (Ok (Continue l'),
         mkWorld (set_callbacks (Some (<[5 := Some 2%nat]> m)) ep_open) tr) ∧
    calls tr = [(2%nat, EPOLLHUP)].
Proof.
  intros m.
  assert (H1 : ep_closed ep_open = false) by reflexivity.
  assert (H2 : ep_callbacks ep_open = Some m) by reflexivity.
  assert (H3 : m !! 5 = None) by reflexivity.
  assert (H4 : -2 ^ 31 ≤ 5 < 2 ^ 31) by lia.
  assert (H5 : 5 ≠ ep_eventFd ep_open) by (cbn; lia).
  assert (H6 : locals_ok locals_begin) by reflexivity.
  assert (H7 : (1 ≤ length (events locals_begin))%nat).
  { unfold locals_begin, make_events, maxWaitEventsBegin. cbn [events].
    rewrite length_replicate. lia. }
  split; [exact H1|]. split; [exact H2|]. split; [exact H3|]. split; [exact H4|].
  split; [exact H5|]. split; [exact H6|]. split; [exact H7|].
  destruct (registered_handle_is_dispatched temporary_eintr defaultOnWaitError
              ep_open m 5 EPOLLIN EPOLLHUP 2%nat locals_begin H1 H2 H3 H4 H5 H6 H7)
    as (l' & tr & Hrun & _ & Hcalls).
  exists l', tr. split; [exact Hrun|exact Hcalls].
Defined.

Lemma wide_handle_is_not_dispatched_witness :
  let m : gmap Z Func := {[ 7 := Some 1%nat; 9 := None ]} in
  let fd := 2 ^ 32 + 7 in
  ep_closed ep_open = false ∧
  ep_callbacks ep_open = Some m ∧
  m !! fd = None ∧
  ¬ (-2 ^ 31 ≤ fd < 2 ^ 31) ∧
  int32 fd ≠ ep_eventFd ep_open ∧
  locals_ok locals_begin ∧
  (1 ≤ length (events locals_begin))%nat ∧
  int32 fd = 7 ∧
  ∃ l' tr,
    run (Add fd EPOLLIN (Some 2%nat) None ;;;
         wait_iter temporary_eintr defaultOnWaitError
           (inr [{| Events := EPOLLIN; Fd := int32 fd |}]) locals_begin) ep_open
      = (Ok (Continue l'),
         mkWorld (set_callbacks (Some (<[fd := Some 2%nat]> m)) ep_open) tr) ∧
    calls tr = [(1%nat, EPOLLIN)].
Proof.
  intros m fd.
  assert (H1 : ep_closed ep_open = false) by reflexivity.
  assert (H2 : ep_callbacks ep_open = Some m) by reflexivity.
  assert (H3 : m !! fd = None) by reflexivity.
  assert (H4 : ¬ (-2 ^ 31 ≤ fd < 2 ^ 31)) by (unfold fd; lia).
  assert (H5 : int32 fd ≠ ep_eventFd ep_open) by (by vm_compute).
  assert (H6 : locals_ok locals_begin) by reflexivity.
  assert (H7 : (1 ≤ length (events locals_begin))%nat).
  { unfold locals_begin, make_events, maxWaitEventsBegin. cbn [events].
    rewrite length_replicate. lia. }
  split; [exact H1|]. split; [exact H2|]. split; [exact H3|]. split; [exact H4|].
  split; [exact H5|]. split; [exact H6|]. split; [exact H7|].
  split; [reflexivity|].
  destruct (wide_handle_is_not_dispatched temporary_eintr defaultOnWaitError
              ep_open m fd EPOLLIN EPOLLIN (Some 2%nat) locals_begin
              H1 H2 H3 H4 H5 H6 H7) as (_ & l' & tr & Hrun & Hcalls).
  exists l', tr. split; [exact Hrun|exact Hcalls].
Defined.

Lemma wait_lock_discipline_witness :
  ep_waitDone ep_open = false ∧
  lock_run Free
    (log (snd (run (wait temporary_eintr defaultOnWaitError busy (Some 5)) ep_open)))
    = Some Free.
Proof.
  split; [reflexivity|].
  apply (wait_lock_discipline temporary_eintr defaultOnWaitError busy (Some 5) ep_open).
  reflexivity.
Defined.

Lemma wait_calls_bounded_witness :
  ep_waitDone ep_open = false ∧
  Forall (wait_ev_ok (ep_fd ep_open))
    (log (snd (run (wait temporary_eintr defaultOnWaitError busy (Some 5)) ep_open))).
Proof.
  split; [reflexivity|].
  apply (wait_calls_bounded temporary_eintr defaultOnWaitError busy (Some 5) ep_open).
  reflexivity.
Defined.

Lemma wait_error_reports_witness :
  let out := run (wait temporary_eintr defaultOnWaitError busy (Some 5)) ep_open in
  ep_waitDone ep_open = false ∧
  fst out = Ok tt ∧
  errors_reported (log (snd out))
    = [(defaultOnWaitError, Errno 9); (defaultOnWaitError, Errno 5)].
Proof.
  intros out.
  assert (H1 : ep_waitDone ep_open = false) by reflexivity.
  assert (Hres : fst out = Ok tt) by (vm_compute; reflexivity).
  split; [exact H1|]. split; [exact Hres|].
  pose proof (wait_error_reports temporary_eintr defaultOnWaitError busy (Some 5)
                ep_open H1) as Hrep.
  cbv zeta in Hrep. fold out in Hrep. rewrite Hres in Hrep.
  destruct Hrep as [Hrep|(e & _ & _ & _ & Hrep)].
  - exfalso. assert (Hlen : length (errors_reported (log (snd out))) = 2%nat)
      by (vm_compute; reflexivity).
    rewrite Hrep in Hlen. discriminate Hlen.
  - rewrite Hrep. f_equal.
    assert (Hhd : head (errors_reported (log (snd out)))
                  = Some (defaultOnWaitError, Errno 9)) by (vm_compute; reflexivity).
    rewrite Hrep in Hhd. by injection Hhd as ->.
Defined.

(** A run in which the kernel reports handles and fails with EINTR, while
    a goroutine unregisters the handle 7 and registers it again with the
    callback 2. *)
Definition calm : list Step :=
  [Answer (inr [{| Events := EPOLLIN; Fd := 7 |}; {| Events := EPOLLIN; Fd := 9 |}]);
   Client (CallDel 7 None);
   Answer (inl 4);
   Answer (inr [{| Events := EPOLLOUT; Fd := 7 |}]);
   Client (CallAdd 7 EPOLLIN (Some 2%nat) None);
   Answer (inr [{| Events := EPOLLIN; Fd := 7 |}])].

Lemma locals_begin_ok : locals_ok locals_begin.
Proof.
  unfold locals_ok, locals_begin, make_events, make_callbacks.
  cbn [arr callbacks events]. by rewrite !length_replicate.
Defined.

Lemma calm_quiet :
  quiet_from temporary_eintr false (ep_eventFd ep_open)
    (length (events locals_begin)) calm.
Proof.
  unfold locals_begin, make_events. cbn [events]. rewrite length_replicate.
  unfold calm, maxWaitEventsBegin. cbn.
  repeat split; try first [lia | reflexivity | by right].
  all: unfold grows; repeat case_bool_decide; cbn [andb]; lia.
Defined.

Lemma wait_runs_on_witness :
  let m : gmap Z Func := {[ 7 := Some 1%nat; 9 := None ]} in
  ep_closed ep_open = false ∧
  ep_callbacks ep_open = Some m ∧
  locals_ok locals_begin ∧
  quiet_from temporary_eintr false (ep_eventFd ep_open)
    (length (events locals_begin)) calm ∧
  ∃ tr,
    run (wait_from temporary_eintr map_to_list defaultOnWaitError locals_begin calm None)
      ep_open
      = (Blocked,
         mkWorld {| ep_fd := 3; ep_eventFd := 4; ep_closed := false;
                    ep_waitDone := false;
                    ep_callbacks := Some (table_after false m calm) |} tr) ∧
    calls tr = [(1%nat, EPOLLIN); (2%nat, EPOLLIN)].
Proof.
  intros m.
  assert (H1 : ep_closed ep_open = false) by reflexivity.
  assert (H2 : ep_callbacks ep_open = Some m) by reflexivity.
  split; [exact H1|]. split; [exact H2|]. split; [exact locals_begin_ok|].
  split; [exact calm_quiet|].
  destruct (proj2 (wait_runs_on temporary_eintr map_to_list defaultOnWaitError None)
              calm locals_begin ep_open m H1 H2 locals_begin_ok calm_quiet)
    as (tr & Hrun & Hcalls & _).
  exists tr. split; [exact Hrun|exact Hcalls].
Defined.

(** Buffers that have grown once, and a shutdown in which the loop still
    gets a failure and a batch, another goroutine calls [Close] as well,
    and the wake handle then comes in a batch of 1500 entries. *)
Definition locals_grown : Locals :=
  {| events := make_events (maxWaitEventsBegin * 2);
     callbacks := make_callbacks (maxWaitEventsBegin * 2) |}.

Definition late : list Step :=
  [Answer (inl 4);
   Client (CallClose (inr 8) (ret tt) None);
   Answer (inr [{| Events := EPOLLIN; Fd := 7 |}])].

Definition wake_batch : list unix_EpollEvent :=
  {| Events := EPOLLIN; Fd := 4 |}
  :: replicate (Z.to_nat 1499) {| Events := EPOLLIN; Fd := 9 |}.

Lemma Close_shuts_down_witness :
  let m : gmap Z Func := {[ 7 := Some 1%nat; 9 := None ]} in
  ep_closed ep_open = false ∧
  ep_waitDone ep_open = false ∧
  ep_callbacks ep_open = Some m ∧
  locals_ok locals_grown ∧
  quiet_from temporary_eintr true (ep_eventFd ep_open)
    (length (events locals_grown)) late ∧
  (length wake_batch ≤ cap_after (length (events locals_grown)) late)%nat ∧
  has_wake (ep_eventFd ep_open) wake_batch = true ∧
  ∃ tr,
    run (Close map_to_list (inr 8)
           (wait_from temporary_eintr map_to_list defaultOnWaitError locals_grown
              (late ++ Answer (inr wake_batch) :: []) None)
           None) ep_open
      = (Ok None, mkWorld ep_shut tr) ∧
    closed_handles tr = [3; 4] ∧
    calls tr = [(1%nat, EPOLLIN); (1%nat, _EPOLLCLOSED)] ∧
    lock_run Free tr = Some Free.
Proof.
  intros m.
  assert (Hlen : length (events locals_grown) = Z.to_nat 2048).
  { unfold locals_grown, make_events. cbn [events]. rewrite length_replicate.
    unfold maxWaitEventsBegin. lia. }
  assert (H1 : ep_closed ep_open = false) by reflexivity.
  assert (H2 : ep_waitDone ep_open = false) by reflexivity.
  assert (H3 : ep_callbacks ep_open = Some m) by reflexivity.
  assert (H4 : locals_ok locals_grown).
  { unfold locals_ok, locals_grown, make_events, make_callbacks.
    cbn [arr callbacks events]. by rewrite !length_replicate. }
  assert (H5 : quiet_from temporary_eintr true (ep_eventFd ep_open)
                 (length (events locals_grown)) late).
  { rewrite Hlen. unfold late. cbn. repeat split; try first [lia | reflexivity | by left].
    all: unfold grows; repeat case_bool_decide; cbn [andb]; lia. }
  assert (H6 : (length wake_batch
                ≤ cap_after (length (events locals_grown)) late)%nat).
  { rewrite Hlen. unfold wake_batch, late. cbn [length cap_after next_cap].
    rewrite length_replicate. unfold grows. cbn [length].
    rewrite bool_decide_eq_false_2 by lia. cbn [andb]. lia. }
  assert (H7 : has_wake (ep_eventFd ep_open) wake_batch = true) by reflexivity.
  split; [exact H1|]. split; [exact H2|]. split; [exact H3|].
  split; [exact H4|]. split; [exact H5|]. split; [exact H6|]. split; [exact H7|].
  destruct (Close_shuts_down temporary_eintr map_to_list (λ m, reflexivity _)
              defaultOnWaitError ep_open m locals_grown late [] wake_batch 8 None
              H1 H2 H3 H4 H5 H6 H7)
    as (tr & flush & Hrun & Hclosed & _ & Hcalls & Hflush & Hlock).
  exists tr. split; [exact Hrun|]. split; [exact Hclosed|]. split; [|exact Hlock].
  rewrite Hcalls. cbn [late owed table_step app].
  assert (Hf : flush = [(1%nat, _EPOLLCLOSED)]).
  { apply Permutation_singleton_r. rewrite Hflush. by vm_compute. }
  rewrite Hf. reflexivity.
Defined.

Lemma Close_flushes_callbacks_witness :
  let m : gmap Z Func := {[ 7 := Some 1%nat; 9 := None ]} in
  let bg := wait temporary_eintr defaultOnWaitError woken None in
  let w0 := mkWorld (set_closed true ep_open)
              [EvLock; EvSetClosed true; EvWrite 4 closeBytes (inr 8); EvUnlock] in
  (∀ m' : gmap Z Func, map_to_list m' ≡ₚ map_to_list m') ∧
  ep_closed ep_open = false ∧
  bg w0 = (Ok tt, snd (bg w0)) ∧
  ep_waitDone (inst (snd (bg w0))) = true ∧
  ep_callbacks (inst (snd (bg w0))) = Some m ∧
  fst (run (Close map_to_list (inr 8) bg None) ep_open) = Ok None ∧
  calls (log (snd (run (Close map_to_list (inr 8) bg None) ep_open)))
    = [(1%nat, _EPOLLCLOSED)].
Proof.
  intros m bg w0.
  assert (H0 : ∀ m' : gmap Z Func, map_to_list m' ≡ₚ map_to_list m')
    by (intros m'; reflexivity).
  assert (H1 : ep_closed ep_open = false) by reflexivity.
  assert (H2 : bg w0 = (Ok tt, snd (bg w0))) by (vm_compute; reflexivity).
  assert (H3 : ep_waitDone (inst (snd (bg w0))) = true) by (vm_compute; reflexivity).
  assert (H4 : ep_callbacks (inst (snd (bg w0))) = Some m) by (vm_compute; reflexivity).
  split; [exact H0|]. split; [exact H1|]. split; [exact H2|].
  split; [exact H3|]. split; [exact H4|].
  destruct (Close_flushes_callbacks map_to_list H0 ep_open 8 bg (snd (bg w0)) m
              H1 H2 H3 H4) as (Hrun & _ & _).
  rewrite Hrun. split; [reflexivity|]. vm_compute. reflexivity.
Defined.
